(** * audio-slicer: the slicing preview and the main window

    A shallow embedding of [utils/preview.py] (class [SlicingPreview]) and
    of [gui/mainwindow.py] (class [MainWindow] and its [WorkThread]), with
    the properties of the written specification stated against them.

    Python integers are unbounded, so they are [Z]; Python strings are
    [string]; Python lists are [list].  The two-element lists [[begin, end]]
    built by [_apply_slice] and the silence tags [(start, end)] are pairs. *)

From Stdlib Require Import ZArith List String Ascii Bool Lia.
From Stdlib Require Import DecimalString.
From Stdlib Require DecimalNat FinFun.
Import ListNotations.
Local Open Scope Z_scope.

(** ** utils/preview.py *)

Module Preview.

(** The fields [__init__] stores from its arguments.  The resampled waveform
    [audio_samples] is an array of floats that only the first subplot draws;
    its values play no part in any computation below and are left out. *)
Record SlicingPreview := mkPreview {
  filename : string;
  sil_tags : list (Z * Z);
  hop_size : Z;
  total_frames : Z;
  waveform_shape : Z;
  theme : string
}.

(** [self.target_sr], assigned in [__init__]. *)
Definition target_sr : Z := 6000.

(** [sil_tags[i]] for an index in range. *)
Definition item (tags : list (Z * Z)) (i : nat) : Z * Z := nth i tags (0, 0).

(** [sil_tags[-1]] of a non-empty list. *)
Definition item_last (tags : list (Z * Z)) : Z * Z := last tags (0, 0).

(** [_apply_slice]: hop indices become sample positions; the end is clamped
    to the waveform length. *)
Definition apply_slice (self : SlicingPreview) (b e : Z) : Z * Z :=
  (b * hop_size self, Z.min (waveform_shape self) (e * hop_size self)).

(** [_get_ranges], statement by statement. *)
Definition get_ranges (self : SlicingPreview) (tags : list (Z * Z)) : list (Z * Z) :=
  if (List.length tags =? 0)%nat then []
  else
    (if fst (item tags 0) >? 0
     then [apply_slice self 0 (fst (item tags 0))] else [])
    ++ map (fun i => apply_slice self (snd (item tags i)) (fst (item tags (i + 1))))
           (seq 0 (List.length tags - 1))
    ++ (if snd (item_last tags) <? total_frames self
        then [apply_slice self (snd (item_last tags)) (total_frames self)] else []).

(** The ranges that follow an episode ending at hop [e_prev]: the recursion
    behind the [for] loop and the final [if] of [_get_ranges]. *)
Fixpoint gaps_from (self : SlicingPreview) (e_prev : Z) (rest : list (Z * Z))
  : list (Z * Z) :=
  match rest with
  | [] => if e_prev <? total_frames self
          then [apply_slice self e_prev (total_frames self)] else []
  | t :: tl => apply_slice self e_prev (fst t) :: gaps_from self (snd t) tl
  end.

(** *** Episodes and ranges as sets of positions *)

(** Episodes after the one ending at [e_prev]: each starts strictly after
    the previous end (ordered, disjoint, not adjacent), has start <= end, and
    the last one ends within [total]. *)
Fixpoint chainb (e_prev : Z) (rest : list (Z * Z)) (total : Z) : bool :=
  match rest with
  | [] => e_prev <=? total
  | t :: tl => (e_prev <? fst t) && (fst t <=? snd t) && chainb (snd t) tl total
  end.

(** A well-formed list of accepted episodes within [[0, total)]. *)
Definition episodes_okb (tags : list (Z * Z)) (total : Z) : bool :=
  match tags with
  | [] => 0 <=? total
  | t :: tl => (0 <=? fst t) && (fst t <=? snd t) && chainb (snd t) tl total
  end.

(** Position [x] lies in one of the half-open ranges [rs]. *)
Definition in_ranges (x : Z) (rs : list (Z * Z)) : Prop :=
  exists r, In r rs /\ fst r <= x < snd r.

(** Hop [q] lies in one of the episodes. *)
Definition in_episodes (q : Z) (tags : list (Z * Z)) : Prop :=
  exists t, In t tags /\ fst t <= q < snd t.

(** Sample position [x] lies in one of the episodes, each hop being [hop]
    samples long. *)
Definition in_silence (hop x : Z) (tags : list (Z * Z)) : Prop :=
  exists t, In t tags /\ fst t * hop <= x < snd t * hop.

(** Consecutive ranges: starts strictly increase and a range ends no later
    than the next one starts. *)
Fixpoint ranges_increasing (rs : list (Z * Z)) : Prop :=
  match rs with
  | r1 :: (r2 :: _) as tl =>
      fst r1 < fst r2 /\ snd r1 <= fst r2 /\ ranges_increasing tl
  | _ => True
  end.

(** The chunk ranges in the specification's words, in hop units: the whole
    buffer when there is no episode; otherwise [[0, first.start)] when speech
    precedes the first episode, [[episode[i].end, episode[i+1].start)]
    between consecutive episodes, and [[last.end, total)] after the last. *)
Definition spec_complement (tags : list (Z * Z)) (total : Z) : list (Z * Z) :=
  match tags with
  | [] => [(0, total)]
  | first :: _ =>
      (if 0 <? fst first then [(0, fst first)] else [])
      ++ combine (map snd tags) (tl (map fst tags))
      ++ (if snd (item_last tags) <? total
          then [(snd (item_last tags), total)] else [])
  end.

(** A hop range as [_apply_slice] renders it. *)
Definition slice_of (self : SlicingPreview) (g : Z * Z) : Z * Z :=
  apply_slice self (fst g) (snd g).

(** *** The plots of [_plot_preview] *)

(** What [_plot_preview] hands to matplotlib for the marks on the waveform
    and for the two lower subplots.  Colours, spines and tick parameters are
    left out.  An axis limit [max(values) / 0.9] is a float; it is kept as
    the integer numerator over the literal's tenths, unevaluated.  In the
    same way the position [ranges[i][k] / 1000.] of a label or of a vertical
    line is kept as the integer bound over the divisor. *)
Inductive PlotCmd :=
| Subplot (pos : Z)
| Annotate (label : string) (x_num : Z) (x_den : Z)
| Axvline (x_num : Z) (x_den : Z)
| Lim (axis : string) (lo : Z) (hi_num : Z) (hi_den_tenths : Z)
| Bar (items : list string) (values : list Z)
| Barh (items : list string) (values : list Z)
| Text (item : string) (value : Z)
| Title (label : string)
| Savefig (path : string) (dpi : Z).

Definition str_of_nat (n : nat) : string := NilZero.string_of_uint (Nat.to_uint n).

(** [enumerate]. *)
Fixpoint enumerate_from {A} (i : nat) (l : list A) : list (nat * A) :=
  match l with
  | [] => []
  | x :: tl => (i, x) :: enumerate_from (S i) tl
  end.

Definition maxZ (l : list Z) : Z := fold_right Z.max 0 l.

Definition distribution_items : list string :=
  ["<2"; "<5"; "<8"; "<11"; "<14"; "<17"; "<20"; ">=20"]%string.
Definition distribution_values : list Z := [1; 5; 7; 11; 13; 7; 5; 1].
Definition ranking_items : list string :=
  ["#5"; "#1"; "#6"; "#8"; "#12"; "#7"]%string.
Definition ranking_values : list Z := [21; 28; 32; 36; 45; 51].

(** The body of the loop over the ranges: [start_pos = ranges[i][0] / 1000.],
    [end_pos = ranges[i][1] / 1000.], the label ["#" + str(i)] at
    [start_pos], and a vertical line at each of the two. *)
Definition marks_of_range (ir : nat * (Z * Z)) : list PlotCmd :=
  let i := fst ir in
  let start_num := fst (snd ir) in
  let end_num := snd (snd ir) in
  [Annotate (String.append "#" (str_of_nat i)) start_num 1000;
   Axvline start_num 1000; Axvline end_num 1000].

(** The marks of the first subplot: one label and two vertical lines per
    range. *)
Definition waveform_marks (self : SlicingPreview) : list PlotCmd :=
  flat_map marks_of_range
           (enumerate_from 0 (get_ranges self (sil_tags self))).

(** Subplot 223, "Length Distribution". *)
Definition distribution_plot : list PlotCmd :=
  let items := distribution_items in
  let values := distribution_values in
  [Subplot 223; Lim "y" 0 (maxZ values) 9; Bar items values]
  ++ map (fun ab => Text (fst ab) (snd ab)) (combine items values)
  ++ [Title "Length Distribution"].

(** Subplot 224, "Length Ranking List". *)
Definition ranking_plot : list PlotCmd :=
  let items := ranking_items in
  let values := ranking_values in
  [Subplot 224; Lim "x" 0 (maxZ values) 9; Barh items values]
  ++ map (fun ab => Text (fst ab) (snd ab)) (combine items values)
  ++ [Title "Length Ranking List"].

(** [_plot_preview]. *)
Definition plot_preview (self : SlicingPreview) (preview_filename : string)
  : list PlotCmd :=
  [Subplot 211] ++ waveform_marks self
  ++ distribution_plot ++ ranking_plot
  ++ [Savefig preview_filename 150].

(** The bars a plot draws: the [(items, values)] of each [Bar] and [Barh]. *)
Definition bars_of (cmds : list PlotCmd) : list (list string * list Z) :=
  flat_map (fun c => match c with
                     | Bar i v | Barh i v => [(i, v)]
                     | _ => []
                     end) cmds.

(** [save_plot]. *)
Definition save_plot (self : SlicingPreview) (filename : string) : list PlotCmd :=
  plot_preview self filename.

(** The labels and the vertical lines a plot draws, in drawing order: a
    label with the position it is put at, a line with its position, each
    position as (bound, divisor). *)
Definition labels_of (cmds : list PlotCmd) : list (string * (Z * Z)) :=
  flat_map (fun c => match c with
                     | Annotate label num den => [(label, (num, den))]
                     | _ => []
                     end) cmds.

Definition lines_of (cmds : list PlotCmd) : list (Z * Z) :=
  flat_map (fun c => match c with
                     | Axvline num den => [(num, den)]
                     | _ => []
                     end) cmds.

(** The summed length of half-open ranges. *)
Definition total_length (rs : list (Z * Z)) : Z :=
  fold_right (fun r acc => (snd r - fst r) + acc) 0 rs.

(** *** Concrete previews *)

(** One episode of hops [[300, 500)] in a buffer of 1000 hops of 10 samples. *)
Definition one_episode : SlicingPreview :=
  mkPreview "take.wav" [(300, 500)] 10 1000 10000 "dark".

(** No episode at all, in a buffer of 10 hops of one sample each. *)
Definition no_episode : SlicingPreview :=
  mkPreview "loud.wav" [] 1 10 10 "dark".

End Preview.

(** ** The string and path functions the window uses

    [os.path] is taken in its POSIX flavour ([posixpath]): the separator is
    ["/"] and there is no drive letter.  Indices are [Z], with [rfind]
    returning [-1] when the character is absent, as in Python. *)

Module OsPath.

Definition sep : ascii := "/"%char.
Definition extsep : ascii := "."%char.

(** [s.rfind(c)]. *)
Fixpoint rfind (c : ascii) (s : string) : Z :=
  match s with
  | EmptyString => -1
  | String a s' =>
      let j := rfind c s' in
      if 0 <=? j then j + 1
      else if Ascii.eqb a c then 0 else -1
  end.

(** [s[:i]] and [s[i:]] for [0 <= i]. *)
Definition slice_to (s : string) (i : Z) : string := substring 0 (Z.to_nat i) s.
Definition slice_from (s : string) (i : Z) : string :=
  substring (Z.to_nat i) (String.length s - Z.to_nat i) s.

(** [s[i:j]] as a list of characters, for [0 <= i]. *)
Definition chars_between (s : string) (i j : Z) : list ascii :=
  list_ascii_of_string (substring (Z.to_nat i) (Z.to_nat (j - i)) s).

Definition startswith (c : ascii) (s : string) : bool :=
  match s with
  | String a _ => Ascii.eqb a c
  | EmptyString => false
  end.

Fixpoint endswith (c : ascii) (s : string) : bool :=
  match s with
  | EmptyString => false
  | String a EmptyString => Ascii.eqb a c
  | String _ s' => endswith c s'
  end.

(** [s.rstrip(c)]. *)
Fixpoint rstrip (c : ascii) (s : string) : string :=
  match s with
  | EmptyString => EmptyString
  | String a s' =>
      match rstrip c s' with
      | EmptyString => if Ascii.eqb a c then EmptyString else String a EmptyString
      | r => String a r
      end
  end.

(** [s == c * len(s)]. *)
Definition all_chars (c : ascii) (s : string) : bool :=
  forallb (fun a => Ascii.eqb a c) (list_ascii_of_string s).

(** [os.path.basename]. *)
Definition basename (p : string) : string :=
  let i := rfind sep p + 1 in
  slice_from p i.

(** [os.path.dirname]. *)
Definition dirname (p : string) : string :=
  let i := rfind sep p + 1 in
  let head := slice_to p i in
  if negb (String.eqb head "") && negb (all_chars sep head)
  then rstrip sep head else head.

(** [os.path.splitext]: the extension starts at the last dot of the last
    component, unless that component has only dots before it. *)
Definition splitext (p : string) : string * string :=
  let sepIndex := rfind sep p in
  let dotIndex := rfind extsep p in
  if (sepIndex <? dotIndex)
     && existsb (fun a => negb (Ascii.eqb a extsep))
                (chars_between p (sepIndex + 1) dotIndex)
  then (slice_to p dotIndex, slice_from p dotIndex)
  else (p, EmptyString).

(** [os.path.join(a, b)]. *)
Definition join (a b : string) : string :=
  if startswith sep b then b
  else if String.eqb a "" || endswith sep a then (a ++ b)%string
  else (a ++ String sep b)%string.

(** [s.rsplit('.', maxsplit=1)[0]]. *)
Definition rsplit_dot_head (s : string) : string :=
  let i := rfind extsep s in
  if 0 <=? i then slice_to s i else s.

(** [s.lower()], on ASCII letters; the other characters are kept. *)
Definition lower_char (a : ascii) : ascii :=
  let n := nat_of_ascii a in
  if ((65 <=? n) && (n <=? 90))%nat then ascii_of_nat (n + 32) else a.

Fixpoint lower (s : string) : string :=
  match s with
  | EmptyString => EmptyString
  | String a s' => String (lower_char a) (lower s')
  end.

(** ['%d' % i] for an index. *)
Definition str_of_index (i : nat) : string :=
  NilZero.string_of_uint (Nat.to_uint i).

End OsPath.

(** ** gui/mainwindow.py: the window *)

Module Gui.
Import OsPath.

(** A [QListWidgetItem]: its text and the full path kept at
    [Qt.ItemDataRole.UserRole + 1]. *)
Record Item := mkItem { item_text : string; item_path : string }.

(** The message boxes the window has shown. *)
Inductive Dialog :=
| Information (title text : string)
| Warning (title text : string).

(** The enabled flag of each widget [_setProcessing] touches. *)
Record Enabled := mkEnabled {
  btnStart : bool; btnPreview : bool; btnAddFiles : bool; lwTaskList_en : bool;
  btnClearList : bool; leThreshold_en : bool; leMinLen_en : bool;
  leMinInterval_en : bool; leHopSize_en : bool; leMaxSilence_en : bool;
  leOutputDir_en : bool; btnBrowse : bool
}.

(** A started [WorkThread]: the file names it was given. *)
Record Worker := mkWorker { filenames : list string }.

(** The window: the widgets of [self.ui] that the handlers read or write,
    and the state variables of [__init__].  [dialogs] lists the message
    boxes shown so far, oldest first; [selectedRows] is the selection of the
    task list. *)
Record Window := mkWindow {
  applicationName : string;
  lwTaskList : list Item;
  selectedRows : list nat;
  leOutputDir : string;
  leThreshold : string;
  leMinLen : string;
  leMinInterval : string;
  leHopSize : string;
  leMaxSilence : string;
  btnStartText : string;
  progressMinimum : Z;
  progressMaximum : Z;
  progressValue : Z;
  enabled : Enabled;
  workers : list Worker;
  workCount : Z;
  workFinished : Z;
  processing : bool;
  dialogs : list Dialog
}.

(** Field updates. *)
Definition set_taskList (w : Window) (l : list Item) : Window :=
  mkWindow (applicationName w) l (selectedRows w) (leOutputDir w)
    (leThreshold w) (leMinLen w) (leMinInterval w) (leHopSize w)
    (leMaxSilence w) (btnStartText w) (progressMinimum w) (progressMaximum w)
    (progressValue w) (enabled w) (workers w) (workCount w) (workFinished w)
    (processing w) (dialogs w).

Definition set_outputDir (w : Window) (d : string) : Window :=
  mkWindow (applicationName w) (lwTaskList w) (selectedRows w) d
    (leThreshold w) (leMinLen w) (leMinInterval w) (leHopSize w)
    (leMaxSilence w) (btnStartText w) (progressMinimum w) (progressMaximum w)
    (progressValue w) (enabled w) (workers w) (workCount w) (workFinished w)
    (processing w) (dialogs w).

Definition set_progress (w : Window) (lo hi v : Z) : Window :=
  mkWindow (applicationName w) (lwTaskList w) (selectedRows w) (leOutputDir w)
    (leThreshold w) (leMinLen w) (leMinInterval w) (leHopSize w)
    (leMaxSilence w) (btnStartText w) lo hi v (enabled w) (workers w)
    (workCount w) (workFinished w) (processing w) (dialogs w).

Definition set_workers (w : Window) (ws : list Worker) : Window :=
  mkWindow (applicationName w) (lwTaskList w) (selectedRows w) (leOutputDir w)
    (leThreshold w) (leMinLen w) (leMinInterval w) (leHopSize w)
    (leMaxSilence w) (btnStartText w) (progressMinimum w) (progressMaximum w)
    (progressValue w) (enabled w) ws (workCount w) (workFinished w)
    (processing w) (dialogs w).

Definition set_counts (w : Window) (count finished : Z) : Window :=
  mkWindow (applicationName w) (lwTaskList w) (selectedRows w) (leOutputDir w)
    (leThreshold w) (leMinLen w) (leMinInterval w) (leHopSize w)
    (leMaxSilence w) (btnStartText w) (progressMinimum w) (progressMaximum w)
    (progressValue w) (enabled w) (workers w) count finished
    (processing w) (dialogs w).

Definition show (w : Window) (d : Dialog) : Window :=
  mkWindow (applicationName w) (lwTaskList w) (selectedRows w) (leOutputDir w)
    (leThreshold w) (leMinLen w) (leMinInterval w) (leHopSize w)
    (leMaxSilence w) (btnStartText w) (progressMinimum w) (progressMaximum w)
    (progressValue w) (enabled w) (workers w) (workCount w) (workFinished w)
    (processing w) (dialogs w ++ [d]).

(** [_setProcessing]. *)
Definition setProcessing (w : Window) (p : bool) : Window :=
  let is_enabled := negb p in
  mkWindow (applicationName w) (lwTaskList w) (selectedRows w) (leOutputDir w)
    (leThreshold w) (leMinLen w) (leMinInterval w) (leHopSize w)
    (leMaxSilence w)
    (if p then "Slicing..." else "Start")
    (progressMinimum w) (progressMaximum w) (progressValue w)
    (mkEnabled is_enabled is_enabled is_enabled is_enabled is_enabled
       is_enabled is_enabled is_enabled is_enabled is_enabled is_enabled
       is_enabled)
    (workers w) (workCount w) (workFinished w) p (dialogs w).

(** [__init__], on the window as [setupUi] leaves it: the progress bar is
    reset and the state variables are initialised. *)
Definition init (ui : Window) : Window :=
  mkWindow (applicationName ui) (lwTaskList ui) (selectedRows ui)
    (leOutputDir ui) (leThreshold ui) (leMinLen ui) (leMinInterval ui)
    (leHopSize ui) (leMaxSilence ui) (btnStartText ui) 0 100 0 (enabled ui)
    [] 0 0 false (dialogs ui).

(** [_warningProcessNotFinished]. *)
Definition warningProcessNotFinished (w : Window) : Window :=
  show w (Warning (applicationName w) "Please wait for slicing to complete!").

(** [QFileInfo(path).fileName()]: what follows the last ["/"]. *)
Definition fileName (path : string) : string := basename path.

(** The item both [_on_add_audio_files] and [dropEvent] build for a path. *)
Definition item_of_path (path : string) : Item := mkItem (fileName path) path.

(** [QDir.toNativeSeparators], the identity where the separator is ["/"]. *)
Definition toNativeSeparators (path : string) : string := path.

(** [_on_browse_output_dir]; [path] is what the directory dialog returns. *)
Definition on_browse_output_dir (w : Window) (path : string) : Window :=
  if negb (String.eqb path "") then set_outputDir w (toNativeSeparators path)
  else w.

(** [_on_add_audio_files]; [paths] is what the file dialog returns, and the
    dialog is opened only when no run is in progress. *)
Definition on_add_audio_files (w : Window) (paths : list string) : Window :=
  if processing w then warningProcessNotFinished w
  else fold_left (fun w path => set_taskList w (lwTaskList w ++ [item_of_path path]))
                 paths w.

(** [_on_remove_audio_file]: the bound method [selectedItems] is taken, not
    called, and the handler returns. *)
Definition on_remove_audio_file (w : Window) : Window :=
  let selectedItems := selectedRows w in
  w.

(** [_on_clear_audio_list]. *)
Definition on_clear_audio_list (w : Window) : Window :=
  if processing w then warningProcessNotFinished w
  else set_taskList w [].

(** [_on_about]. *)
Definition on_about (w : Window) : Window :=
  show w (Information "About"
            "Audio Slicer v1.1.0
Copyright 2020-2023 OpenVPI Team").

(** [_on_start]: the paths are collected from the items, the progress bar
    and the counters are reset, and one worker is started and remembered. *)
Definition on_start (w : Window) : Window :=
  if processing w then warningProcessNotFinished w
  else
    let item_count := Z.of_nat (List.length (lwTaskList w)) in
    if item_count =? 0 then w
    else
      let paths := map item_path (lwTaskList w) in
      let w := set_progress w (progressMinimum w) item_count (progressValue w) in
      let w := set_progress w (progressMinimum w) (progressMaximum w) 0 in
      let w := set_counts w item_count 0 in
      let w := setProcessing w true in
      let worker := mkWorker paths in
      set_workers w (workers w ++ [worker]).

(** [_oneFinished]. *)
Definition oneFinished (w : Window) : Window :=
  let w := set_counts w (workCount w) (workFinished w + 1) in
  set_progress w (progressMinimum w) (progressMaximum w) (workFinished w).

(** [_threadFinished]. *)
Definition threadFinished (w : Window) : Window :=
  let w := set_workers w [] in
  let w := setProcessing w false in
  show w (Information (applicationName w) "Slicing complete!").

(** [closeEvent]; the second component is the event's accepted flag. *)
Definition closeEvent (w : Window) (accepted : bool) : Window * bool :=
  if processing w then (warningProcessNotFinished w, false)
  else (w, accepted).

(** A [QUrl] of the dragged data. *)
Record Url := mkUrl { isLocalFile : bool; toLocalFile : string }.

(** The test both drag handlers apply to a URL. *)
Definition is_wav_url (url : Url) : bool :=
  if negb (isLocalFile url) then false
  else
    let path := toLocalFile url in
    let ext := snd (splitext path) in
    String.eqb (lower ext) ".wav".

(** The sixteen spellings of the extension: a dot, then [w], [a], [v], each
    in either case. *)
Definition wav_ext (ext : string) : Prop :=
  exists c1 c2 c3 : ascii,
    ext = String "." (String c1 (String c2 (String c3 EmptyString)))
    /\ (c1 = "w" \/ c1 = "W")%char
    /\ (c2 = "a" \/ c2 = "A")%char
    /\ (c3 = "v" \/ c3 = "V")%char.

(** [dragEnterEvent]: the loop stops at the first .wav file; the event is
    accepted when there is one and left as it came otherwise. *)
Fixpoint has_wav (urls : list Url) : bool :=
  match urls with
  | [] => false
  | url :: rest =>
      if negb (isLocalFile url) then has_wav rest
      else
        let path := toLocalFile url in
        let ext := snd (splitext path) in
        if String.eqb (lower ext) ".wav" then true else has_wav rest
  end.

Definition dragEnterEvent (w : Window) (urls : list Url) (accepted : bool)
  : Window * bool :=
  if has_wav urls then (w, true) else (w, accepted).

(** [dropEvent]. *)
Fixpoint dropEvent (w : Window) (urls : list Url) : Window :=
  match urls with
  | [] => w
  | url :: rest =>
      if negb (isLocalFile url) then dropEvent w rest
      else
        let path := toLocalFile url in
        let ext := snd (splitext path) in
        if negb (String.eqb (lower ext) ".wav") then dropEvent w rest
        else dropEvent (set_taskList w (lwTaskList w ++ [item_of_path path])) rest
  end.

(** The line edits of the window, and what typing into one or selecting
    rows of the task list does: the widget takes the input when it is
    enabled.  (The validators only narrow the texts that can be typed.) *)
Inductive LineEdit :=
| LeOutputDir | LeThreshold | LeMinLen | LeMinInterval | LeHopSize | LeMaxSilence.

Definition lineEdit_enabled (w : Window) (le : LineEdit) : bool :=
  match le with
  | LeOutputDir => leOutputDir_en (enabled w)
  | LeThreshold => leThreshold_en (enabled w)
  | LeMinLen => leMinLen_en (enabled w)
  | LeMinInterval => leMinInterval_en (enabled w)
  | LeHopSize => leHopSize_en (enabled w)
  | LeMaxSilence => leMaxSilence_en (enabled w)
  end.

Definition set_lineEdit (w : Window) (le : LineEdit) (text : string) : Window :=
  let pick (this : LineEdit) (old : string) :=
    match le, this with
    | LeOutputDir, LeOutputDir | LeThreshold, LeThreshold
    | LeMinLen, LeMinLen | LeMinInterval, LeMinInterval
    | LeHopSize, LeHopSize | LeMaxSilence, LeMaxSilence => text
    | _, _ => old
    end in
  mkWindow (applicationName w) (lwTaskList w) (selectedRows w)
    (pick LeOutputDir (leOutputDir w)) (pick LeThreshold (leThreshold w))
    (pick LeMinLen (leMinLen w)) (pick LeMinInterval (leMinInterval w))
    (pick LeHopSize (leHopSize w)) (pick LeMaxSilence (leMaxSilence w))
    (btnStartText w) (progressMinimum w) (progressMaximum w)
    (progressValue w) (enabled w) (workers w) (workCount w) (workFinished w)
    (processing w) (dialogs w).

Definition type_text (w : Window) (le : LineEdit) (text : string) : Window :=
  if lineEdit_enabled w le then set_lineEdit w le text else w.

Definition select_rows (w : Window) (rows : list nat) : Window :=
  if lwTaskList_en (enabled w)
  then mkWindow (applicationName w) (lwTaskList w) rows (leOutputDir w)
         (leThreshold w) (leMinLen w) (leMinInterval w) (leHopSize w)
         (leMaxSilence w) (btnStartText w) (progressMinimum w)
         (progressMaximum w) (progressValue w) (enabled w) (workers w)
         (workCount w) (workFinished w) (processing w) (dialogs w)
  else w.

(** What can happen to the window: the user's actions, with what the
    dialogs and the drag carry, and the two signals of a worker. *)
Inductive Event :=
| EvBrowse (path : string)
| EvAddFiles (paths : list string)
| EvRemove
| EvClear
| EvAbout
| EvStart
| EvOneFinished
| EvThreadFinished
| EvClose
| EvDragEnter (urls : list Url)
| EvDrop (urls : list Url)
| EvType (le : LineEdit) (text : string)
| EvSelect (rows : list nat).

Definition step (w : Window) (ev : Event) : Window :=
  match ev with
  | EvBrowse path => on_browse_output_dir w path
  | EvAddFiles paths => on_add_audio_files w paths
  | EvRemove => on_remove_audio_file w
  | EvClear => on_clear_audio_list w
  | EvAbout => on_about w
  | EvStart => on_start w
  | EvOneFinished => oneFinished w
  | EvThreadFinished => threadFinished w
  | EvClose => fst (closeEvent w true)
  | EvDragEnter urls => fst (dragEnterEvent w urls false)
  | EvDrop urls => dropEvent w urls
  | EvType le text => type_text w le text
  | EvSelect rows => select_rows w rows
  end.

(** The states of a window: [__init__] and then any events. *)
Inductive reachable : Window -> Prop :=
| reach_init ui : reachable (init ui)
| reach_step w ev : reachable w -> reachable (step w ev).

(** A worker is remembered only while the processing flag is set, there is
    never more than one, and the flag is set only with files in the list. *)
Definition run_invariant (w : Window) : Prop :=
  (processing w = false -> workers w = [])
  /\ (List.length (workers w) <= 1)%nat
  /\ (processing w = true -> lwTaskList w <> []).

(** Every widget of [_setProcessing] disabled. *)
Definition all_disabled : Enabled :=
  mkEnabled false false false false false false false false false false false
    false.

(** While the processing flag is set: the widgets are disabled, the start
    button reads "Slicing...", and the one worker was given the paths of
    the first items of the task list, as many as the work count and the
    progress maximum say. *)
Definition busy_invariant (w : Window) : Prop :=
  processing w = true ->
  enabled w = all_disabled
  /\ btnStartText w = "Slicing..."%string
  /\ exists files later,
       files <> []
       /\ workers w = [mkWorker files]
       /\ map item_path (lwTaskList w) = files ++ later
       /\ workCount w = Z.of_nat (List.length files)
       /\ progressMaximum w = Z.of_nat (List.length files).

(** The signals of a worker, as the window receives them. *)
Inductive Signal := SigOneFinished | SigFinished.

Definition handle (w : Window) (sig : Signal) : Window :=
  match sig with
  | SigOneFinished => oneFinished w
  | SigFinished => threadFinished w
  end.

Definition deliver (w : Window) (sigs : list Signal) : Window :=
  fold_left handle sigs w.

End Gui.

(** ** gui/mainwindow.py: the worker thread *)

Module WorkThread.
Import OsPath Gui.

(** What [run] calls outside this repository's two files: numpy arrays,
    [soundfile], the conversions [float] and [int], the [Slicer] of
    [slicer2], and [os.path.abspath] (which depends on the working
    directory).  A call that raises returns [None]. *)
Record Platform := mkPlatform {
  Audio : Type;
  Threshold : Type;
  SlicerT : Type;
  shape : Audio -> list nat;
  transpose : Audio -> Audio;
  sf_read : string -> option (Audio * Z);
  sf_writable : string -> bool;
  py_float : string -> option Threshold;
  py_int : string -> option Z;
  Slicer : Z -> Threshold -> Z -> Z -> Z -> Z -> option SlicerT;
  get_slice_tags : SlicerT -> Audio -> option (list (Z * Z) * Z);
  slice : SlicerT -> Audio -> list (Z * Z) -> Z -> option (list Audio);
  abspath : string -> string
}.

Section Run.
Variable P : Platform.

(** What a run does to the outside. *)
Inductive Effect :=
| MkPath (dir : string)
| SfWrite (path : string) (chunk : Audio P) (sr : Z)
| OneFinished.

(** The outside: the directories that exist, and what the run has done so
    far, oldest first. *)
Record World := mkWorld { dirs : list string; log : list Effect }.

(** A computation either returns a value or raises, in both cases leaving a
    world behind. *)
Inductive Result (A : Type) :=
| Ok (a : A) (w : World)
| Exn (w : World).
Arguments Ok {A} a w.
Arguments Exn {A} w.

Definition M (A : Type) : Type := World -> Result A.

Definition ret {A} (a : A) : M A := fun w => Ok a w.

Definition bind {A B} (m : M A) (k : A -> M B) : M B :=
  fun w => match m w with
           | Ok a w' => k a w'
           | Exn w' => Exn w'
           end.

(** A call that may raise. *)
Definition try {A} (o : option A) : M A :=
  fun w => match o with
           | Some a => Ok a w
           | None => Exn w
           end.

Definition effect (e : Effect) : M unit :=
  fun w => Ok tt (mkWorld (dirs w) (log w ++ [e])).

(** [QDir(d).exists()]. *)
Definition dir_exists (d : string) : M bool :=
  fun w => Ok (existsb (String.eqb d) (dirs w)) w.

(** [info.mkpath(out_dir)]: the call is recorded and the directory asked for
    is taken to exist afterwards.  The parents Qt creates on the way, and a
    call that fails (its flag is not looked at by the caller), are not
    tracked. *)
Definition mkpath (d : string) : M unit :=
  fun w => Ok tt (mkWorld (d :: dirs w) (log w ++ [MkPath d])).

(** [soundfile.write]. *)
Definition sf_write (path : string) (chunk : Audio P) (sr : Z) : M unit :=
  fun w => if sf_writable P path
           then Ok tt (mkWorld (dirs w) (log w ++ [SfWrite path chunk sr]))
           else Exn w.

(** A [for] loop. *)
Fixpoint for_each {A} (l : list A) (body : A -> M unit) : M unit :=
  match l with
  | [] => ret tt
  | x :: rest => bind (body x) (fun _ => for_each rest body)
  end.

(** [enumerate]. *)
Fixpoint enumerate_from {A} (i : nat) (l : list A) : list (nat * A) :=
  match l with
  | [] => []
  | x :: rest => (i, x) :: enumerate_from (S i) rest
  end.

Definition enumerate {A} (l : list A) : list (nat * A) := enumerate_from 0 l.

(** ['%s_%d.wav' % (os.path.basename(filename).rsplit('.', maxsplit=1)[0], i)]. *)
Definition chunk_name (filename : string) (i : nat) : string :=
  (rsplit_dot_head (basename filename) ++ "_" ++ str_of_index i ++ ".wav")%string.

Local Notation "x <- m ;; k" := (bind m (fun x => k))
  (at level 61, m at next level, right associativity).
Local Notation "m ;;; k" := (bind m (fun _ => k))
  (at level 61, right associativity).

(** The body of the loop of [run], for one file; [win] is the window whose
    line edits the thread reads. *)
Definition run_file (win : Window) (filename : string) : M unit :=
  read <- try (sf_read P filename) ;;
  let audio := fst read in
  let sr := snd read in
  let is_mono := negb (1 <? List.length (shape P audio))%nat in
  let audio := if is_mono then audio else transpose P audio in
  threshold <- try (py_float P (leThreshold win)) ;;
  min_length <- try (py_int P (leMinLen win)) ;;
  min_interval <- try (py_int P (leMinInterval win)) ;;
  hop_size <- try (py_int P (leHopSize win)) ;;
  max_sil_kept <- try (py_int P (leMaxSilence win)) ;;
  slicer <- try (Slicer P sr threshold min_length min_interval hop_size max_sil_kept) ;;
  tags <- try (get_slice_tags P slicer audio) ;;
  let sil_tags := fst tags in
  let total_frames := snd tags in
  chunks <- try (slice P slicer audio sil_tags total_frames) ;;
  out_dir <- (if String.eqb (leOutputDir win) ""
              then ret (dirname (abspath P filename))
              else
                present <- dir_exists (leOutputDir win) ;;
                (if negb present then mkpath (leOutputDir win) else ret tt) ;;;
                ret (leOutputDir win)) ;;
  for_each (enumerate chunks)
    (fun ic =>
       let path := join out_dir (chunk_name filename (fst ic)) in
       let chunk := if is_mono then snd ic else transpose P (snd ic) in
       sf_write path chunk sr) ;;;
  effect OneFinished.

(** [WorkThread.run]. *)
Definition run (win : Window) (filenames : list string) : M unit :=
  for_each filenames (run_file win).

(** The [oneFinished] signals among the effects, and the signals of a
    thread whose [run] has returned: Qt emits [finished] once after them. *)
Definition emitted (l : list Effect) : list Signal :=
  flat_map (fun e => match e with
                     | OneFinished => [SigOneFinished]
                     | _ => []
                     end) l.

Definition thread_signals (l : list Effect) : list Signal :=
  emitted l ++ [SigFinished].

(** [len(audio.shape) > 1]: the array read has a channel axis. *)
Definition multi_channel (a : Audio P) : bool :=
  (1 <? List.length (shape P a))%nat.

(** The array handed to the slicer: channels first when there are several. *)
Definition slicer_input (a : Audio P) : Audio P :=
  if multi_channel a then transpose P a else a.

(** The array written for a chunk [c] of the file read as [a]. *)
Definition written_chunk (a c : Audio P) : Audio P :=
  if multi_channel a then transpose P c else c.

(** [chunks] is what the slicer, built from the line edits of [win] and the
    sample rate, returns for the file read as [a]. *)
Definition sliced (win : Window) (a : Audio P) (sr : Z)
  (chunks : list (Audio P)) : Prop :=
  exists threshold min_length min_interval hop_size max_sil_kept slicer
         sil_tags total_frames,
    py_float P (leThreshold win) = Some threshold
    /\ py_int P (leMinLen win) = Some min_length
    /\ py_int P (leMinInterval win) = Some min_interval
    /\ py_int P (leHopSize win) = Some hop_size
    /\ py_int P (leMaxSilence win) = Some max_sil_kept
    /\ Slicer P sr threshold min_length min_interval hop_size max_sil_kept
       = Some slicer
    /\ get_slice_tags P slicer (slicer_input a) = Some (sil_tags, total_frames)
    /\ slice P slicer (slicer_input a) sil_tags total_frames = Some chunks.

(** The directory the chunks of a file go to. *)
Definition out_dir_of (win : Window) (filename : string) : string :=
  if String.eqb (leOutputDir win) "" then dirname (abspath P filename)
  else leOutputDir win.

(** The directory creation a file starts with: none when no output
    directory is given or when it exists. *)
Definition mkpath_effects (win : Window) (w : World) : list Effect :=
  if String.eqb (leOutputDir win) "" then []
  else if existsb (String.eqb (leOutputDir win)) (dirs w) then []
  else [MkPath (leOutputDir win)].

(** The writes of the chunks of a file read as [a] at rate [sr]. *)
Definition chunk_writes (win : Window) (filename : string) (a : Audio P)
  (sr : Z) (chunks : list (Audio P)) : list Effect :=
  map (fun ic => SfWrite (join (out_dir_of win filename)
                               (chunk_name filename (fst ic)))
                         (written_chunk a (snd ic)) sr)
      (enumerate chunks).

(** The directories once the output directory of [win] has been seen to. *)
Definition dirs_after_mkpath (win : Window) (w : World) : list string :=
  if String.eqb (leOutputDir win) "" then dirs w
  else if existsb (String.eqb (leOutputDir win)) (dirs w) then dirs w
  else leOutputDir win :: dirs w.

(** The effects of a file processed to its end, and their shape: one
    notification, in the last place. *)
Definition file_block (win : Window) (filename : string) (b : list Effect)
  : Prop :=
  exists w w', run_file win filename w = Ok tt w' /\ log w' = log w ++ b.

Definition notified_at_end (b : list Effect) : Prop :=
  exists before, b = before ++ [OneFinished] /\ emitted before = [].

(** What is used of numpy, soundfile and the slicer: [.T] reverses the axes,
    a file is read as [(frames,)] or [(frames, channels)], and the slicer
    cuts its input along the last axis. *)
Definition array_laws : Prop :=
  (forall a, shape P (transpose P a) = rev (shape P a))
  /\ (forall f a sr, sf_read P f = Some (a, sr) ->
        (List.length (shape P a) <= 2)%nat)
  /\ (forall s a tags total cs c,
        slice P s a tags total = Some cs -> In c cs ->
        List.length (shape P c) = List.length (shape P a)
        /\ removelast (shape P c) = removelast (shape P a)).

(** The files written, with the array and the sample rate of each. *)
Definition writes (l : list Effect) : list (string * Audio P * Z) :=
  flat_map (fun e => match e with
                     | SfWrite path chunk sr => [(path, chunk, sr)]
                     | _ => []
                     end) l.

End Run.

Arguments Ok {P A} a w.
Arguments Exn {P A} w.
Arguments MkPath {P} dir.
Arguments SfWrite {P} path chunk sr.
Arguments OneFinished {P}.

(** *** A small platform: arrays up to their shape

    An array is its shape.  ["a.wav"] is a stereo file of 8 frames and
    ["c.wav"] a mono file of 6 frames, both at 44100 Hz; no other file can be
    read.  The slicer cuts every array in two halves along its last axis. *)
Definition halves (a : list nat) : list (list nat) :=
  match rev a with
  | [] => []
  | n :: front => [rev (Nat.div2 n :: front); rev ((n - Nat.div2 n)%nat :: front)]
  end.

Definition small_read (filename : string) : option (list nat * Z) :=
  if String.eqb filename "/in/a.wav" then Some ([8; 2]%nat, 44100)
  else if String.eqb filename "/in/c.wav" then Some ([6]%nat, 44100)
  else None.

Definition small : Platform :=
  mkPlatform (list nat) Z unit
    (fun a => a) (@rev nat)
    small_read (fun _ => true)
    (fun _ => Some (-40)) (fun _ => Some 10)
    (fun _ _ _ _ _ _ => Some tt)
    (fun _ a => Some ([], 0))
    (fun _ a _ _ => Some (halves a))
    (fun p => p).

(** A window with output directory ["/out"] and three files listed. *)
Definition three_files : Window :=
  mkWindow "Audio Slicer"
    [item_of_path "/in/a.wav"; item_of_path "/in/bad.wav"; item_of_path "/in/c.wav"]
    [] "/out" "-40" "5000" "300" "10" "1000" "Start" 0 100 0
    (mkEnabled true true true true true true true true true true true true)
    [] 0 0 false [].

(** The same window with the two readable files only. *)
Definition two_files : Window :=
  set_taskList three_files [item_of_path "/in/a.wav"; item_of_path "/in/c.wav"].

Definition empty_world : World small := mkWorld small [] [].

(** The small platform with an [int] that raises on the empty text, and the
    three-file window with the hop size left empty. *)
Definition small_strict : Platform :=
  mkPlatform (list nat) Z unit
    (fun a => a) (@rev nat)
    small_read (fun _ => true)
    (fun _ => Some (-40))
    (fun text => if String.eqb text "" then None else Some 10)
    (fun _ _ _ _ _ _ => Some tt)
    (fun _ a => Some ([], 0))
    (fun _ a _ _ => Some (halves a))
    (fun p => p).

Definition no_hop_size : Window :=
  mkWindow "Audio Slicer"
    [item_of_path "/in/a.wav"; item_of_path "/in/c.wav"]
    [] "/out" "-40" "5000" "300" "" "1000" "Start" 0 100 0
    (mkEnabled true true true true true true true true true true true true)
    [] 0 0 false [].

(** The three-file window with no output directory, and what processing
    ["/in/a.wav"] does then. *)
Definition beside_source : Window := set_outputDir three_files "".

Definition a_effects_beside : list (Effect small) :=
  [@SfWrite small "/in/a_0.wav" [4; 2]%nat 44100;
   @SfWrite small "/in/a_1.wav" [4; 2]%nat 44100; OneFinished].

(** What processing ["/in/a.wav"] and ["/in/c.wav"] into ["/out"] does. *)
Definition a_effects : list (Effect small) :=
  [@SfWrite small "/out/a_0.wav" [4; 2]%nat 44100;
   @SfWrite small "/out/a_1.wav" [4; 2]%nat 44100; OneFinished].

Definition c_effects : list (Effect small) :=
  [@SfWrite small "/out/c_0.wav" [3]%nat 44100;
   @SfWrite small "/out/c_1.wav" [3]%nat 44100; OneFinished].

(** The worlds after ["/in/a.wav"] alone, into ["/out"] and beside the
    source, from the empty world. *)
Definition after_a : World small :=
  mkWorld small ["/out"%string] (MkPath "/out" :: a_effects).

Definition after_a_beside : World small := mkWorld small [] a_effects_beside.

End WorkThread.

(** * Properties *)

Module PreviewFacts.
Import Preview.

(** ** [_get_ranges] as a recursion over the tags *)

Lemma map_seq_shift {A} (f : nat -> A) (n : nat) :
  map f (seq 1 n) = map (fun i => f (S i)) (seq 0 n).
Proof. now rewrite <- seq_shift, map_map. Qed.

Lemma mid_ranges_cons self t u tl :
  map (fun i => apply_slice self (snd (item (t :: u :: tl) i))
                                 (fst (item (t :: u :: tl) (i + 1))))
      (seq 0 (List.length (t :: u :: tl) - 1))
  = apply_slice self (snd t) (fst u)
    :: map (fun i => apply_slice self (snd (item (u :: tl) i))
                                      (fst (item (u :: tl) (i + 1))))
           (seq 0 (List.length (u :: tl) - 1)).
Proof.
  cbn [List.length]. rewrite !Nat.sub_succ, !Nat.sub_0_r.
  cbn [seq map]. f_equal. now rewrite map_seq_shift.
Qed.

Lemma loop_and_tail_gaps self tl : forall t,
  map (fun i => apply_slice self (snd (item (t :: tl) i))
                                 (fst (item (t :: tl) (i + 1))))
      (seq 0 (List.length (t :: tl) - 1))
  ++ (if snd (item_last (t :: tl)) <? total_frames self
      then [apply_slice self (snd (item_last (t :: tl))) (total_frames self)]
      else [])
  = gaps_from self (snd t) tl.
Proof.
  induction tl as [|u tl IH]; intros t.
  - reflexivity.
  - rewrite mid_ranges_cons. cbn [app gaps_from]. f_equal.
    replace (item_last (t :: u :: tl)) with (item_last (u :: tl)) by reflexivity.
    apply IH.
Qed.

Lemma get_ranges_cons self t tl :
  get_ranges self (t :: tl)
  = (if fst t >? 0 then [apply_slice self 0 (fst t)] else [])
    ++ gaps_from self (snd t) tl.
Proof.
  unfold get_ranges. cbn [List.length Nat.eqb].
  now rewrite loop_and_tail_gaps.
Qed.

(** ** Membership *)

Lemma in_ranges_nil x : in_ranges x [] <-> False.
Proof. split; [intros (r & [] & _) | tauto]. Qed.

Lemma in_ranges_cons x r rs :
  in_ranges x (r :: rs) <-> (fst r <= x < snd r) \/ in_ranges x rs.
Proof.
  unfold in_ranges; split.
  - intros (r' & [<- | Hin] & Hx); [now left | right; eauto].
  - intros [Hx | (r' & Hin & Hx)]; [exists r | exists r']; simpl; auto.
Qed.

Lemma in_ranges_app x rs1 rs2 :
  in_ranges x (rs1 ++ rs2) <-> in_ranges x rs1 \/ in_ranges x rs2.
Proof.
  induction rs1 as [|r rs1 IH]; simpl.
  - rewrite in_ranges_nil; tauto.
  - rewrite !in_ranges_cons, IH; tauto.
Qed.

Lemma in_silence_nil hop x : in_silence hop x [] <-> False.
Proof. split; [intros (r & [] & _) | tauto]. Qed.

Lemma in_silence_cons hop x t tl :
  in_silence hop x (t :: tl)
  <-> (fst t * hop <= x < snd t * hop) \/ in_silence hop x tl.
Proof.
  unfold in_silence; split.
  - intros (r' & [<- | Hin] & Hx); [now left | right; eauto].
  - intros [Hx | (r' & Hin & Hx)]; [exists t | exists r']; simpl; auto.
Qed.

(** ** Well-formed episode lists *)

Lemma chainb_cons e_prev t tl total :
  chainb e_prev (t :: tl) total = true
  <-> e_prev < fst t /\ fst t <= snd t /\ chainb (snd t) tl total = true.
Proof.
  cbn [chainb]. rewrite !andb_true_iff, Z.ltb_lt, Z.leb_le. tauto.
Qed.

Lemma chainb_bound rest : forall e_prev total,
  chainb e_prev rest total = true -> e_prev <= total.
Proof.
  induction rest as [|t tl IH]; intros e_prev total H.
  - now apply Z.leb_le.
  - apply chainb_cons in H as (H1 & H2 & H3). apply IH in H3. lia.
Qed.

(** Every episode of a chain lies strictly after the previous end. *)
Lemma chainb_silence_after hop rest : forall e_prev total x,
  0 < hop -> chainb e_prev rest total = true ->
  in_silence hop x rest -> e_prev * hop < x.
Proof.
  induction rest as [|t tl IH]; intros e_prev total x Hhop Hc Hs.
  - now apply in_silence_nil in Hs.
  - apply chainb_cons in Hc as (H1 & H2 & H3).
    apply in_silence_cons in Hs as [Hs | Hs].
    + nia.
    + specialize (IH _ _ _ Hhop H3 Hs). nia.
Qed.

(** ** The ranges after an episode are the complement of the later episodes *)

Lemma gaps_from_complement self rest : forall e_prev x,
  0 < hop_size self ->
  chainb e_prev rest (total_frames self) = true ->
  in_ranges x (gaps_from self e_prev rest)
  <-> (e_prev * hop_size self <= x
         < Z.min (waveform_shape self) (total_frames self * hop_size self)
       /\ ~ in_silence (hop_size self) x rest).
Proof.
  induction rest as [|t tl IH]; intros e_prev x Hhop Hc.
  - cbn [gaps_from chainb] in *. apply Z.leb_le in Hc.
    rewrite in_silence_nil.
    destruct (Z.ltb_spec e_prev (total_frames self)).
    + rewrite in_ranges_cons, in_ranges_nil. unfold apply_slice; simpl. tauto.
    + rewrite in_ranges_nil. split; [tauto | nia].
  - apply chainb_cons in Hc as (H1 & H2 & H3).
    cbn [gaps_from]. rewrite in_ranges_cons, (IH _ _ Hhop H3), in_silence_cons.
    pose proof (chainb_bound _ _ _ H3) as Hb.
    pose proof (chainb_silence_after (hop_size self) tl (snd t)
                  (total_frames self) x Hhop H3) as Hafter.
    unfold apply_slice; cbn [fst snd].
    split.
    + intros [Hx | (Hx & Hns)].
      * split; [nia|]. intros [Hs | Hs]; [nia|]. apply Hafter in Hs. nia.
      * split; [nia|]. intros [Hs | Hs]; [nia | tauto].
    + intros (Hx & Hns).
      destruct (Z.lt_ge_cases x (fst t * hop_size self)) as [Hlt | Hge].
      * left. lia.
      * right. split; [|tauto].
        destruct (Z.lt_ge_cases x (snd t * hop_size self)); [|lia].
        exfalso. apply Hns. left. lia.
Qed.

(** ** Order of the ranges *)

Lemma gaps_from_head self rest e_prev r :
  hd_error (gaps_from self e_prev rest) = Some r ->
  fst r = e_prev * hop_size self.
Proof.
  destruct rest; cbn [gaps_from].
  - destruct (e_prev <? total_frames self); cbn; [|discriminate].
    now intros [= <-].
  - cbn. now intros [= <-].
Qed.

Lemma ranges_increasing_cons r rs :
  ranges_increasing rs ->
  (forall r2, hd_error rs = Some r2 -> fst r < fst r2 /\ snd r <= fst r2) ->
  ranges_increasing (r :: rs).
Proof.
  intros Hrs Hhd. destruct rs as [|r2 rs']; cbn; [exact I|].
  destruct (Hhd r2 eq_refl). auto.
Qed.

Lemma gaps_from_increasing self rest : forall e_prev,
  0 < hop_size self ->
  chainb e_prev rest (total_frames self) = true ->
  ranges_increasing (gaps_from self e_prev rest).
Proof.
  induction rest as [|t tl IH]; intros e_prev Hhop Hc.
  - cbn [gaps_from]. destruct (e_prev <? total_frames self); exact I.
  - apply chainb_cons in Hc as (H1 & H2 & H3).
    cbn [gaps_from]. apply ranges_increasing_cons; [now apply IH|].
    intros r2 Hr2. apply gaps_from_head in Hr2. rewrite Hr2.
    unfold apply_slice; cbn [fst snd]. split; nia.
Qed.

(** With the last hop starting inside the waveform, no range is empty. *)
Lemma gaps_from_nonempty self rest : forall e_prev r,
  0 < hop_size self ->
  (total_frames self - 1) * hop_size self < waveform_shape self ->
  chainb e_prev rest (total_frames self) = true ->
  In r (gaps_from self e_prev rest) -> fst r < snd r.
Proof.
  induction rest as [|t tl IH]; intros e_prev r Hhop Hwf Hc Hin.
  - cbn [gaps_from] in Hin.
    destruct (Z.ltb_spec e_prev (total_frames self)); [|contradiction].
    destruct Hin as [<- | []]. unfold apply_slice; cbn [fst snd]. nia.
  - apply chainb_cons in Hc as (H1 & H2 & H3).
    pose proof (chainb_bound _ _ _ H3) as Hb.
    cbn [gaps_from] in Hin. destruct Hin as [<- | Hin].
    + unfold apply_slice; cbn [fst snd]. nia.
    + now apply (IH (snd t)).
Qed.

(** ** The ranges, itemised as in the specification *)

Lemma last_default_irrelevant {A} (x : A) (l : list A) (d d' : A) :
  last (x :: l) d = last (x :: l) d'.
Proof.
  revert x; induction l as [|y l IH]; intros x; [reflexivity|].
  change (last (y :: l) d = last (y :: l) d'). apply IH.
Qed.

Lemma last_cons_default {A} (x : A) (l : list A) (d : A) :
  last (x :: l) d = last l x.
Proof.
  revert x; induction l as [|y l IH]; intros x; [reflexivity|].
  change (last (y :: l) d = last (y :: l) x). apply last_default_irrelevant.
Qed.

Lemma gaps_from_itemised self rest : forall e_prev,
  gaps_from self e_prev rest
  = map (slice_of self) (combine (e_prev :: map snd rest) (map fst rest))
    ++ (if snd (last rest (0, e_prev)) <? total_frames self
        then [apply_slice self (snd (last rest (0, e_prev))) (total_frames self)]
        else []).
Proof.
  induction rest as [|t tl IH]; intros e_prev; [reflexivity|].
  cbn [gaps_from map combine app]. rewrite IH. unfold slice_of at 2; cbn [fst snd].
  f_equal. rewrite (last_cons_default t tl).
  destruct tl as [|u tl']; [reflexivity|].
  now rewrite (last_default_irrelevant u tl' (0, snd t) t).
Qed.

Lemma get_ranges_itemised self t rest :
  get_ranges self (t :: rest)
  = map (slice_of self) (spec_complement (t :: rest) (total_frames self)).
Proof.
  rewrite get_ranges_cons, gaps_from_itemised. unfold spec_complement, item_last.
  rewrite !map_app. cbn [map List.tl].
  assert (Hlast : snd (last rest (0, snd t)) = snd (last (t :: rest) (0, 0))).
  { rewrite last_cons_default. destruct rest as [|u rest']; [reflexivity|].
    now rewrite (last_default_irrelevant u rest' (0, snd t) t). }
  rewrite Hlast. f_equal.
  - rewrite Z.gtb_ltb. now destruct (0 <? fst t).
  - f_equal. now destruct (snd (last (t :: rest) (0, 0)) <? total_frames self).
Qed.

(** ** The claims about [_get_ranges] *)

Example get_ranges_one_episode :
  get_ranges one_episode (sil_tags one_episode) = [(0, 3000); (5000, 10000)].
Proof. reflexivity. Qed.

(** C1, as stated, fails on the empty list: hop 3 of a ten-hop buffer without
    any episode belongs to the complement of the episodes within [[0, 10)],
    and to none of the computed ranges. *)
Lemma get_ranges_empty_not_complement :
  episodes_okb (sil_tags no_episode) (total_frames no_episode) = true
  /\ 0 <= 3 < total_frames no_episode
  /\ ~ in_episodes 3 (sil_tags no_episode)
  /\ In (0, total_frames no_episode)
        (spec_complement (sil_tags no_episode) (total_frames no_episode))
  /\ ~ in_ranges 3 (get_ranges no_episode (sil_tags no_episode)).
Proof.
  split; [reflexivity|]. split; [cbn; lia|]. split; [|split].
  - intros (t & [] & _).
  - now left.
  - intros (r & [] & _).
Qed.

(** C1 (amended).  For every NON-EMPTY ordered, non-overlapping,
    non-adjacent list of accepted episodes (hop units) within
    [[0, total_frames)] and every positive hop size, the ranges computed by
    [_get_ranges] are the specification's complement ranges, [[0,
    first.start)] when speech precedes the first episode, [[episode[i].end,
    episode[i+1].start)] between consecutive episodes and [[last.end,
    total_frames)] after the last one, each rendered by [_apply_slice] (bounds
    multiplied by the hop size, the end clamped to the waveform length); a
    sample position lies in one of them exactly when it lies in
    [[0, min(waveform_shape, total_frames * hop_size))] and in no episode; and
    in emission order the starts strictly increase and no range overlaps the
    next. *)
Theorem get_ranges_complement self tags :
  tags <> [] ->
  0 < hop_size self ->
  episodes_okb tags (total_frames self) = true ->
  get_ranges self tags
  = map (slice_of self) (spec_complement tags (total_frames self))
  /\ (forall x,
        in_ranges x (get_ranges self tags)
        <-> (0 <= x < Z.min (waveform_shape self)
                            (total_frames self * hop_size self)
             /\ ~ in_silence (hop_size self) x tags))
  /\ ranges_increasing (get_ranges self tags).
Proof.
  intros Hne Hhop Hok. destruct tags as [|t rest]; [congruence|]. clear Hne.
  cbn [episodes_okb] in Hok.
  apply andb_true_iff in Hok as (Hok & Hc).
  apply andb_true_iff in Hok as (H0 & Hse).
  apply Z.leb_le in H0, Hse.
  pose proof (chainb_bound _ _ _ Hc) as Hb.
  split; [apply get_ranges_itemised|]. split.
  - intros x. rewrite get_ranges_cons, in_ranges_app, in_silence_cons.
    rewrite (gaps_from_complement self rest (snd t) x Hhop Hc).
    pose proof (chainb_silence_after (hop_size self) rest (snd t)
                  (total_frames self) x Hhop Hc) as Hafter.
    split.
    + intros [Hfirst | (Hx & Hns)].
      * destruct (Z.gtb_spec (fst t) 0); [|now apply in_ranges_nil in Hfirst].
        apply in_ranges_cons in Hfirst as [Hx | Hx];
          [|now apply in_ranges_nil in Hx].
        unfold apply_slice in Hx; cbn [fst snd] in Hx.
        split; [nia|]. intros [Hs | Hs]; [nia|]. apply Hafter in Hs. nia.
      * split; [nia|]. intros [Hs | Hs]; [nia | tauto].
    + intros (Hx & Hns).
      destruct (Z.lt_ge_cases x (fst t * hop_size self)) as [Hlt | Hge].
      * left. destruct (Z.gtb_spec (fst t) 0); [|nia].
        apply in_ranges_cons. left. unfold apply_slice; cbn [fst snd]. lia.
      * right. split; [|tauto].
        destruct (Z.lt_ge_cases x (snd t * hop_size self)); [|lia].
        exfalso. apply Hns. left. lia.
  - rewrite get_ranges_cons.
    pose proof (gaps_from_increasing self rest (snd t) Hhop Hc) as Hinc.
    destruct (Z.gtb_spec (fst t) 0); [|exact Hinc].
    cbn [app]. apply ranges_increasing_cons; [exact Hinc|].
    intros r2 Hr2. apply gaps_from_head in Hr2. rewrite Hr2.
    unfold apply_slice; cbn [fst snd]. split; nia.
Qed.

Lemma get_ranges_complement_witness :
  get_ranges one_episode [(300, 500)]
  = map (slice_of one_episode) (spec_complement [(300, 500)] 1000)
  /\ (forall x,
        in_ranges x (get_ranges one_episode [(300, 500)])
        <-> (0 <= x < Z.min 10000 (1000 * 10)
             /\ ~ in_silence 10 x [(300, 500)]))
  /\ ranges_increasing (get_ranges one_episode [(300, 500)]).
Proof.
  apply (get_ranges_complement one_episode [(300, 500)]);
    [discriminate | reflexivity | reflexivity].
Defined.

(** C2, as stated, fails: with no episode the result has no range, where the
    claim wants the single range [[0, total_frames)]. *)
Lemma get_ranges_empty_not_whole_buffer :
  List.length (get_ranges no_episode []) <> 1%nat
  /\ get_ranges no_episode []
     <> [apply_slice no_episode 0 (total_frames no_episode)].
Proof. split; discriminate. Qed.

(** C2 (amended).  When the episode list is empty, [_get_ranges] returns no
    range at all: the result is the empty list, whatever the total frame
    count, the hop size and the waveform length are. *)
Theorem no_episode_no_range self : get_ranges self [] = [].
Proof. reflexivity. Qed.

(** ** The claim about the lower subplots of [_plot_preview] *)

Lemma bars_of_app c1 c2 : bars_of (c1 ++ c2) = bars_of c1 ++ bars_of c2.
Proof. apply flat_map_app. Qed.

Lemma bars_of_marks (rs : list (Z * Z)) : forall i,
  bars_of (flat_map marks_of_range (enumerate_from i rs)) = [].
Proof.
  induction rs as [|r rs IH]; intros i; [reflexivity|].
  cbn [enumerate_from flat_map]. rewrite bars_of_app, IH. reflexivity.
Qed.

(** C10.  Whatever the audio file, the silence tags and the other fields of
    the preview are, the bars drawn by [_plot_preview] are those of the
    "Length Distribution" subplot and of the "Length Ranking List" subplot,
    with the items and values written in the source; the chunk ranges have no
    part in them. *)
Theorem plot_preview_bars_constant self preview_filename :
  bars_of (plot_preview self preview_filename)
  = [ (["<2"; "<5"; "<8"; "<11"; "<14"; "<17"; "<20"; ">=20"]%string,
       [1; 5; 7; 11; 13; 7; 5; 1]);
      (["#5"; "#1"; "#6"; "#8"; "#12"; "#7"]%string,
       [21; 28; 32; 36; 45; 51]) ].
Proof.
  unfold plot_preview, waveform_marks.
  rewrite !bars_of_app, bars_of_marks. reflexivity.
Qed.

End PreviewFacts.

(** * Further properties of the preview *)

Module PreviewMore.
Import Preview PreviewFacts.

Lemma gaps_from_bounds self rest : forall e_prev r,
  0 < hop_size self ->
  chainb e_prev rest (total_frames self) = true ->
  In r (gaps_from self e_prev rest) ->
  e_prev * hop_size self <= fst r /\ snd r <= waveform_shape self.
Proof.
  induction rest as [|t rest' IH]; intros e_prev r Hhop Hc Hin.
  - cbn [gaps_from] in Hin.
    destruct (e_prev <? total_frames self); [|contradiction].
    destruct Hin as [<- | []]. unfold apply_slice; cbn [fst snd]. lia.
  - apply chainb_cons in Hc as (H1 & H2 & H3).
    cbn [gaps_from] in Hin. destruct Hin as [<- | Hin].
    + unfold apply_slice; cbn [fst snd]. lia.
    + destruct (IH (snd t) r Hhop H3 Hin) as (Hlo & Hhi). split; [nia | exact Hhi].
Qed.

(** X1.  For well-formed episodes, a positive hop size and a waveform in
    which the last hop starts, every range [_get_ranges] returns is
    non-empty and lies inside the waveform: [0 <= start < end <=
    waveform_shape]. *)
Theorem ranges_nonempty_inside_waveform self tags r :
  0 < hop_size self ->
  (total_frames self - 1) * hop_size self < waveform_shape self ->
  episodes_okb tags (total_frames self) = true ->
  In r (get_ranges self tags) ->
  0 <= fst r /\ fst r < snd r /\ snd r <= waveform_shape self.
Proof.
  intros Hhop Hwf Hok Hin. destruct tags as [|t rest]; [contradiction|].
  cbn [episodes_okb] in Hok.
  apply andb_true_iff in Hok as (Hok & Hc).
  apply andb_true_iff in Hok as (H0 & Hse).
  apply Z.leb_le in H0, Hse.
  pose proof (chainb_bound _ _ _ Hc) as Hb.
  rewrite get_ranges_cons in Hin. apply in_app_or in Hin as [Hin | Hin].
  - destruct (Z.gtb_spec (fst t) 0); [|contradiction].
    destruct Hin as [<- | []]. unfold apply_slice; cbn [fst snd]. nia.
  - pose proof (gaps_from_nonempty self rest (snd t) r Hhop Hwf Hc Hin).
    destruct (gaps_from_bounds self rest (snd t) r Hhop Hc Hin).
    repeat split; try assumption. nia.
Qed.

Lemma ranges_nonempty_inside_waveform_witness :
  0 <= fst (5000, 10000) /\ fst (5000, 10000) < snd (5000, 10000)
  /\ snd (5000, 10000) <= waveform_shape one_episode.
Proof.
  apply (ranges_nonempty_inside_waveform one_episode [(300, 500)] (5000, 10000));
    [reflexivity | reflexivity | reflexivity | right; left; reflexivity].
Defined.

Lemma gaps_from_length self rest : forall e_prev,
  0 <= hop_size self ->
  total_frames self * hop_size self <= waveform_shape self ->
  chainb e_prev rest (total_frames self) = true ->
  total_length (gaps_from self e_prev rest)
  + hop_size self * total_length rest
  = (total_frames self - e_prev) * hop_size self.
Proof.
  induction rest as [|t rest' IH]; intros e_prev Hhop Hwf Hc.
  - cbn [gaps_from chainb] in *. apply Z.leb_le in Hc.
    destruct (Z.ltb_spec e_prev (total_frames self));
      unfold apply_slice; cbn; nia.
  - apply chainb_cons in Hc as (H1 & H2 & H3).
    pose proof (chainb_bound _ _ _ H3) as Hb.
    specialize (IH (snd t) Hhop Hwf H3).
    cbn [gaps_from total_length fold_right]. fold (total_length rest').
    fold (total_length (gaps_from self (snd t) rest')).
    unfold apply_slice; cbn [fst snd].
    assert (Hmin : Z.min (waveform_shape self) (fst t * hop_size self)
                   = fst t * hop_size self) by nia.
    rewrite Hmin. nia.
Qed.

(** X2.  When the waveform is at least [total_frames * hop_size] long, so
    that no end is clamped, the lengths of the ranges and the lengths of the
    episodes, counted in samples, add up to the whole buffer. *)
Theorem range_and_episode_lengths_add_up self tags :
  tags <> [] ->
  0 <= hop_size self ->
  total_frames self * hop_size self <= waveform_shape self ->
  episodes_okb tags (total_frames self) = true ->
  total_length (get_ranges self tags) + hop_size self * total_length tags
  = total_frames self * hop_size self.
Proof.
  intros Hne Hhop Hwf Hok. destruct tags as [|t rest]; [congruence|].
  cbn [episodes_okb] in Hok.
  apply andb_true_iff in Hok as (Hok & Hc).
  apply andb_true_iff in Hok as (H0 & Hse).
  apply Z.leb_le in H0, Hse.
  pose proof (chainb_bound _ _ _ Hc) as Hb.
  pose proof (gaps_from_length self rest (snd t) Hhop Hwf Hc) as Hgaps.
  rewrite get_ranges_cons.
  cbn [total_length fold_right]. fold (total_length rest).
  destruct (Z.gtb_spec (fst t) 0).
  - cbn [app total_length fold_right].
    fold (total_length (gaps_from self (snd t) rest)).
    unfold apply_slice; cbn [fst snd].
    assert (Hmin : Z.min (waveform_shape self) (fst t * hop_size self)
                   = fst t * hop_size self) by nia.
    rewrite Hmin. nia.
  - cbn [app]. nia.
Qed.

Lemma range_and_episode_lengths_add_up_witness :
  total_length (get_ranges one_episode [(300, 500)])
  + hop_size one_episode * total_length [(300, 500)]
  = total_frames one_episode * hop_size one_episode.
Proof.
  apply (range_and_episode_lengths_add_up one_episode [(300, 500)]);
    [discriminate | cbn; lia | cbn; lia | reflexivity].
Defined.

Lemma labels_of_app c1 c2 : labels_of (c1 ++ c2) = labels_of c1 ++ labels_of c2.
Proof. apply flat_map_app. Qed.

Lemma lines_of_app c1 c2 : lines_of (c1 ++ c2) = lines_of c1 ++ lines_of c2.
Proof. apply flat_map_app. Qed.

Lemma marks_labels (rs : list (Z * Z)) : forall i,
  labels_of (flat_map marks_of_range (enumerate_from i rs))
  = map (fun kr : nat * (Z * Z) =>
           (String.append "#" (str_of_nat (fst kr)), (fst (snd kr), 1000)))
        (combine (seq i (List.length rs)) rs).
Proof.
  induction rs as [|r rs IH]; intros i; [reflexivity|].
  cbn [enumerate_from flat_map List.length seq combine map].
  rewrite labels_of_app, IH. reflexivity.
Qed.

Lemma marks_lines (rs : list (Z * Z)) : forall i,
  lines_of (flat_map marks_of_range (enumerate_from i rs))
  = flat_map (fun r => [(fst r, 1000); (snd r, 1000)]) rs.
Proof.
  induction rs as [|r rs IH]; intros i; [reflexivity|].
  cbn [enumerate_from flat_map]. rewrite lines_of_app, IH. reflexivity.
Qed.

(** X3.  The plot saved by [save_plot] labels the ranges of the preview's
    own silence tags [#0], [#1], ... in order, range number [k] being
    labelled at its start bound divided by 1000, and draws two vertical lines
    per range, at its start bound divided by 1000 and at its end bound
    divided by 1000, in order; for a non-empty tag list the number of ranges
    is the number of tags, less one, plus one for speech before the first
    tag and one for speech after the last. *)
Theorem preview_marks_follow_ranges self preview_filename :
  let ranges := get_ranges self (sil_tags self) in
  labels_of (save_plot self preview_filename)
  = map (fun kr : nat * (Z * Z) =>
           (String.append "#" (str_of_nat (fst kr)), (fst (snd kr), 1000)))
        (combine (seq 0 (List.length ranges)) ranges)
  /\ lines_of (save_plot self preview_filename)
     = flat_map (fun r => [(fst r, 1000); (snd r, 1000)]) ranges
  /\ (sil_tags self <> [] ->
      List.length ranges
      = (Nat.b2n (fst (item (sil_tags self) 0) >? 0)%Z
         + (List.length (sil_tags self) - 1)
         + Nat.b2n (snd (item_last (sil_tags self)) <? total_frames self)%Z)%nat).
Proof.
  intros ranges. unfold save_plot, plot_preview, waveform_marks. fold ranges.
  split; [|split].
  - rewrite !labels_of_app, marks_labels. cbn. now rewrite app_nil_r.
  - rewrite !lines_of_app, marks_lines. cbn. now rewrite app_nil_r.
  - intros Hne. subst ranges. unfold get_ranges.
    destruct (sil_tags self) as [|t rest]; [congruence|].
    cbn [List.length Nat.eqb]. rewrite !length_app, length_map, length_seq.
    destruct (fst (item (t :: rest) 0) >? 0);
      destruct (snd (item_last (t :: rest)) <? total_frames self);
      cbn [List.length Nat.b2n]; lia.
Qed.

Lemma preview_marks_follow_ranges_witness :
  let ranges := get_ranges one_episode (sil_tags one_episode) in
  labels_of (save_plot one_episode "p.png")
  = map (fun kr : nat * (Z * Z) =>
           (String.append "#" (str_of_nat (fst kr)), (fst (snd kr), 1000)))
        (combine (seq 0 (List.length ranges)) ranges)
  /\ lines_of (save_plot one_episode "p.png")
     = flat_map (fun r => [(fst r, 1000); (snd r, 1000)]) ranges
  /\ (sil_tags one_episode <> [] ->
      List.length ranges
      = (Nat.b2n (fst (item (sil_tags one_episode) 0) >? 0)%Z
         + (List.length (sil_tags one_episode) - 1)
         + Nat.b2n (snd (item_last (sil_tags one_episode))
                    <? total_frames one_episode)%Z)%nat).
Proof. exact (preview_marks_follow_ranges one_episode "p.png"). Defined.

End PreviewMore.

(** * Strings and paths *)

Module PathFacts.
Import OsPath Gui WorkThread.

(** ** Strings as lists of characters *)

Lemma chars_append (a b : string) :
  list_ascii_of_string (a ++ b)
  = list_ascii_of_string a ++ list_ascii_of_string b.
Proof. induction a as [|c a IH]; cbn; [reflexivity | now rewrite IH]. Qed.

Lemma chars_inj (a b : string) :
  list_ascii_of_string a = list_ascii_of_string b -> a = b.
Proof.
  intros H. rewrite <- (string_of_list_ascii_of_string a),
    <- (string_of_list_ascii_of_string b). now rewrite H.
Qed.

Lemma append_inv_head (a b c : string) : (a ++ b = a ++ c)%string -> b = c.
Proof.
  intros H. apply chars_inj. apply (f_equal list_ascii_of_string) in H.
  rewrite !chars_append in H. now apply app_inv_head in H.
Qed.

Lemma append_inv_tail (a b c : string) : (a ++ c = b ++ c)%string -> a = b.
Proof.
  intros H. apply chars_inj. apply (f_equal list_ascii_of_string) in H.
  rewrite !chars_append in H. now apply app_inv_tail in H.
Qed.

Lemma substring_all (s : string) : substring 0 (String.length s) s = s.
Proof. induction s as [|c s IH]; cbn; [reflexivity | now rewrite IH]. Qed.

Lemma substring_split (s : string) : forall n,
  (substring 0 n s ++ substring n (String.length s - n) s)%string = s.
Proof.
  induction s as [|c s IH]; intros n.
  - now destruct n.
  - destruct n as [|n]; cbn.
    + now rewrite substring_all.
    + now rewrite IH.
Qed.

Lemma slices_join (s : string) (i : Z) :
  (slice_to s i ++ slice_from s i)%string = s.
Proof. apply substring_split. Qed.

(** ** [rfind] *)

Lemma rfind_spec (c : ascii) (s : string) :
  -1 <= rfind c s
  /\ (rfind c s = -1 -> ~ In c (list_ascii_of_string s))
  /\ ~ In c (list_ascii_of_string (slice_from s (rfind c s + 1))).
Proof.
  induction s as [|a s (Hlo & Hnone & Htail)].
  - cbn. repeat split; auto; lia.
  - cbn [rfind]. destruct (Z.leb_spec 0 (rfind c s)) as [Hj | Hj].
    + split; [lia|]. split; [lia|].
      unfold slice_from in *.
      replace (Z.to_nat (rfind c s + 1 + 1))
        with (S (Z.to_nat (rfind c s + 1))) by lia.
      exact Htail.
    + assert (Hm : rfind c s = -1) by lia.
      destruct (Ascii.eqb_spec a c) as [-> | Hac].
      * split; [lia|]. split; [lia|].
        unfold slice_from. change (Z.to_nat (0 + 1)) with 1%nat.
        cbn. rewrite ?Nat.sub_0_r, substring_all. auto.
      * split; [lia|]. split.
        -- intros _ [Hin | Hin]; [easy | now apply Hnone].
        -- unfold slice_from. cbn. rewrite substring_all.
           intros [Hin | Hin]; [easy | now apply Hnone].
Qed.

Lemma basename_no_sep (p : string) :
  ~ In sep (list_ascii_of_string (basename p)).
Proof. apply rfind_spec. Qed.

(** ** Chunk names *)

Lemma startswith_prefix (c : ascii) (s rest : string) (n : nat) :
  ~ In c (list_ascii_of_string s) -> startswith c rest = false ->
  startswith c (substring 0 n s ++ rest) = false
  /\ startswith c (s ++ rest) = false.
Proof.
  intros Hc Hrest. destruct s as [|a s]; [now destruct n|].
  assert (Ha : Ascii.eqb a c = false).
  { apply Ascii.eqb_neq. intros ->. apply Hc. now left. }
  destruct n; cbn; auto.
Qed.

Lemma chunk_name_relative (f : string) (i : nat) :
  startswith sep (chunk_name f i) = false.
Proof.
  unfold chunk_name, rsplit_dot_head.
  pose proof (basename_no_sep f) as Hb.
  destruct (0 <=? rfind extsep (basename f)).
  - unfold slice_to.
    exact (proj1 (startswith_prefix sep (basename f)
                    ("_" ++ str_of_index i ++ ".wav")%string _ Hb eq_refl)).
  - exact (proj2 (startswith_prefix sep (basename f)
                    ("_" ++ str_of_index i ++ ".wav")%string 0 Hb eq_refl)).
Qed.

Lemma to_uint_nonnil (n : nat) : Nat.to_uint n <> Decimal.Nil.
Proof.
  intros H. pose proof (DecimalNat.Unsigned.of_to n) as Hn.
  rewrite H in Hn. cbn in Hn. subst n. discriminate H.
Qed.

Lemma str_of_index_inj (i j : nat) : str_of_index i = str_of_index j -> i = j.
Proof.
  unfold str_of_index. intros H.
  apply DecimalNat.Unsigned.to_uint_inj.
  pose proof (NilZero.usu (Nat.to_uint i) (to_uint_nonnil i)) as Hi.
  pose proof (NilZero.usu (Nat.to_uint j) (to_uint_nonnil j)) as Hj.
  rewrite H in Hi. congruence.
Qed.

Lemma chunk_name_inj (f : string) (i j : nat) :
  chunk_name f i = chunk_name f j -> i = j.
Proof.
  unfold chunk_name. intros H.
  apply append_inv_head in H. apply (append_inv_head "_") in H.
  apply append_inv_tail in H. now apply str_of_index_inj.
Qed.

Lemma join_relative (out name : string) :
  startswith sep name = false ->
  join out name
  = ((if String.eqb out "" || endswith sep out then out
      else out ++ String sep EmptyString) ++ name)%string.
Proof.
  intros Hrel. unfold join. rewrite Hrel.
  destruct (String.eqb out "" || endswith sep out); [reflexivity|].
  apply chars_inj. rewrite !chars_append. cbn. now rewrite <- app_assoc.
Qed.

(** ** Paths built from a directory, a separator and a name *)

Lemma append_nil_r (s : string) : (s ++ "")%string = s.
Proof. induction s as [|c s IH]; cbn; [reflexivity | now rewrite IH]. Qed.

Lemma append_assoc_s (a b c : string) :
  ((a ++ b) ++ c)%string = (a ++ (b ++ c))%string.
Proof. induction a as [|x a IH]; cbn; [reflexivity | now rewrite IH]. Qed.

Lemma length_append_sum (a b : string) :
  String.length (a ++ b) = (String.length a + String.length b)%nat.
Proof. induction a as [|x a IH]; cbn; [reflexivity | now rewrite IH]. Qed.

Lemma substring_prefix (a s : string) (n : nat) :
  substring 0 (String.length a + n) (a ++ s) = (a ++ substring 0 n s)%string.
Proof. induction a as [|x a IH]; cbn; [reflexivity | now rewrite IH]. Qed.

Lemma substring_skip (a s : string) (n m : nat) :
  substring (String.length a + n) m (a ++ s) = substring n m s.
Proof. induction a as [|x a IH]; cbn; [reflexivity | exact IH]. Qed.

Lemma substring_none (s : string) : substring 0 0 s = EmptyString.
Proof. now destruct s. Qed.

Lemma rfind_absent (c : ascii) (s : string) :
  ~ In c (list_ascii_of_string s) -> rfind c s = -1.
Proof.
  induction s as [|a s IH]; intros Hc; [reflexivity|].
  cbn [rfind]. rewrite IH by (intros Hin; apply Hc; now right).
  cbn. destruct (Ascii.eqb_spec a c) as [-> | _]; [|reflexivity].
  exfalso. apply Hc. now left.
Qed.

Lemma rfind_bound (c : ascii) (s : string) :
  -1 <= rfind c s < Z.of_nat (String.length s).
Proof.
  induction s as [|a s IH]; [cbn; lia|].
  cbn [rfind String.length]. rewrite Nat2Z.inj_succ.
  destruct (0 <=? rfind c s); [lia|].
  destruct (Ascii.eqb a c); lia.
Qed.

Lemma rfind_last (c : ascii) (a b : string) :
  ~ In c (list_ascii_of_string b) ->
  rfind c (a ++ String c b) = Z.of_nat (String.length a).
Proof.
  intros Hb. induction a as [|x a IH].
  - cbn [append rfind String.length]. rewrite (rfind_absent c b Hb).
    cbn. now rewrite Ascii.eqb_refl.
  - cbn [append rfind String.length]. rewrite IH, Nat2Z.inj_succ.
    destruct (Z.leb_spec 0 (Z.of_nat (String.length a))); lia.
Qed.

Lemma rfind_app_absent (c : ascii) (r t : string) :
  ~ In c (list_ascii_of_string t) -> rfind c (r ++ t) = rfind c r.
Proof.
  intros Ht. induction r as [|x r IH]; cbn [append rfind].
  - now apply rfind_absent.
  - now rewrite IH.
Qed.

Lemma basename_app (dir base : string) :
  ~ In sep (list_ascii_of_string base) ->
  basename (dir ++ String sep base) = base.
Proof.
  intros Hb. unfold basename, slice_from. rewrite (rfind_last sep dir base Hb).
  replace (Z.to_nat (Z.of_nat (String.length dir) + 1))
    with (String.length dir + 1)%nat by lia.
  rewrite length_append_sum. cbn [String.length].
  replace (String.length dir + S (String.length base)
           - (String.length dir + 1))%nat
    with (String.length base) by lia.
  rewrite substring_skip. cbn. apply substring_all.
Qed.

Lemma all_chars_not (c : ascii) (dir t : string) :
  dir <> EmptyString -> endswith c dir = false ->
  all_chars c (dir ++ t) = false.
Proof.
  unfold all_chars. induction dir as [|a d IH]; intros Hne He; [congruence|].
  destruct d as [|b d'].
  - cbn in He. cbn. now rewrite He.
  - change (endswith c (String a (String b d')))
      with (endswith c (String b d')) in He.
    assert (Hd : String b d' <> EmptyString) by discriminate.
    specialize (IH Hd He).
    change (Ascii.eqb a c
            && forallb (fun a0 => Ascii.eqb a0 c)
                 (list_ascii_of_string (String b d' ++ t)) = false).
    rewrite IH. apply andb_false_r.
Qed.

Lemma rstrip_app_sep (c : ascii) (dir : string) :
  dir <> EmptyString -> endswith c dir = false ->
  rstrip c (dir ++ String c EmptyString) = dir.
Proof.
  induction dir as [|a d IH]; intros Hne He; [congruence|].
  destruct d as [|b d'].
  - cbn in He. cbn. rewrite Ascii.eqb_refl, He. reflexivity.
  - change (endswith c (String a (String b d')))
      with (endswith c (String b d')) in He.
    assert (Hd : String b d' <> EmptyString) by discriminate.
    specialize (IH Hd He).
    change (match rstrip c (String b d' ++ String c EmptyString) with
            | EmptyString =>
                if Ascii.eqb a c then EmptyString else String a EmptyString
            | String x y => String a (String x y)
            end = String a (String b d')).
    rewrite IH. reflexivity.
Qed.

Lemma dirname_app (dir base : string) :
  ~ In sep (list_ascii_of_string base) ->
  dir <> EmptyString -> endswith sep dir = false ->
  dirname (dir ++ String sep base) = dir.
Proof.
  intros Hb Hne He. unfold dirname, slice_to.
  rewrite (rfind_last sep dir base Hb).
  replace (Z.to_nat (Z.of_nat (String.length dir) + 1))
    with (String.length dir + 1)%nat by lia.
  rewrite substring_prefix. cbn [substring]. rewrite substring_none.
  rewrite (all_chars_not sep dir _ Hne He).
  destruct dir as [|a d]; [congruence|].
  cbn [append String.eqb negb andb].
  apply (rstrip_app_sep sep (String a d) Hne He).
Qed.

Lemma rsplit_app (stem ext : string) :
  ~ In extsep (list_ascii_of_string ext) ->
  rsplit_dot_head (stem ++ String extsep ext) = stem.
Proof.
  intros He. unfold rsplit_dot_head, slice_to.
  rewrite (rfind_last extsep stem ext He).
  destruct (Z.leb_spec 0 (Z.of_nat (String.length stem))); [|lia].
  rewrite Nat2Z.id. rewrite <- (Nat.add_0_r (String.length stem)).
  rewrite substring_prefix, substring_none. apply append_nil_r.
Qed.

(** ** The extension *)

Lemma splitext_joins (p : string) :
  (fst (splitext p) ++ snd (splitext p))%string = p.
Proof.
  unfold splitext. destruct (_ && _); cbn [fst snd];
    [apply slices_join | apply append_nil_r].
Qed.

Lemma in_substring_char (r t : string) (x : ascii) : forall k,
  (k <= String.length r)%nat ->
  In x (list_ascii_of_string
          (substring k (String.length r + 1 - k) (r ++ String x t))).
Proof.
  induction r as [|a r IH]; intros k Hk.
  - cbn in Hk. assert (k = 0)%nat by lia. subst. cbn. now left.
  - cbn [String.length append] in *. destruct k as [|k].
    + replace (S (String.length r) + 1 - 0)%nat
        with (S (String.length r + 1 - 0)) by lia.
      cbn [substring list_ascii_of_string]. right. apply (IH 0%nat). lia.
    + replace (S (String.length r) + 1 - S k)%nat
        with (String.length r + 1 - k)%nat by lia.
      cbn [substring]. apply IH. lia.
Qed.

(** A path whose last component ends in a character that is neither a
    separator nor a dot, followed by a dot and dot-free, separator-free
    characters: the extension is what starts at that dot. *)
Lemma splitext_ext (r e : string) (x : ascii) :
  x <> sep -> x <> extsep ->
  ~ In sep (list_ascii_of_string e) -> ~ In extsep (list_ascii_of_string e) ->
  splitext (r ++ String x (String extsep e))
  = ((r ++ String x EmptyString)%string, String extsep e).
Proof.
  intros Hxs Hxd Hes Hed. set (root := (r ++ String x EmptyString)%string).
  assert (Hp : (r ++ String x (String extsep e))%string
               = (root ++ String extsep e)%string).
  { subst root. now rewrite append_assoc_s. }
  assert (Hlen : String.length root = (String.length r + 1)%nat).
  { subst root. now rewrite length_append_sum. }
  assert (Hsep : rfind sep (root ++ String extsep e) = rfind sep r).
  { rewrite rfind_app_absent.
    - subst root. apply rfind_app_absent. cbn. intros [H | []]. congruence.
    - cbn. intros [H | H]; [discriminate H | auto]. }
  pose proof (rfind_bound sep r) as Hb.
  unfold splitext. rewrite Hp, Hsep, (rfind_last extsep root e Hed).
  assert (Hlt : (rfind sep r <? Z.of_nat (String.length root)) = true)
    by (apply Z.ltb_lt; lia).
  rewrite Hlt. cbn [andb].
  assert (Hex : existsb (fun a => negb (Ascii.eqb a extsep))
                  (chars_between (root ++ String extsep e) (rfind sep r + 1)
                     (Z.of_nat (String.length root))) = true).
  { apply existsb_exists. exists x. split.
    - unfold chars_between. rewrite <- Hp.
      replace (Z.to_nat (Z.of_nat (String.length root) - (rfind sep r + 1)))
        with (String.length r + 1 - Z.to_nat (rfind sep r + 1))%nat by lia.
      apply in_substring_char. lia.
    - apply negb_true_iff, Ascii.eqb_neq. exact Hxd. }
  rewrite Hex. unfold slice_to, slice_from. rewrite Nat2Z.id. f_equal.
  - pose proof (substring_prefix root (String extsep e) 0) as Hs.
    rewrite Nat.add_0_r in Hs. rewrite Hs, substring_none.
    apply append_nil_r.
  - rewrite length_append_sum.
    replace (String.length root + String.length (String extsep e)
             - String.length root)%nat
      with (String.length (String extsep e)) by lia.
    pose proof (substring_skip root (String extsep e) 0
                  (String.length (String extsep e))) as Hs.
    rewrite Nat.add_0_r in Hs. rewrite Hs. apply substring_all.
Qed.

(** ** Lowering *)

Ltac by_all_characters a :=
  destruct a as [[] [] [] [] [] [] [] []]; vm_compute;
  intros H; try discriminate H; auto.

Lemma lower_char_dot (a : ascii) : lower_char a = "."%char -> a = "."%char.
Proof. by_all_characters a. Qed.

Lemma lower_char_w (a : ascii) :
  lower_char a = "w"%char -> (a = "w" \/ a = "W")%char.
Proof. by_all_characters a. Qed.

Lemma lower_char_a (a : ascii) :
  lower_char a = "a"%char -> (a = "a" \/ a = "A")%char.
Proof. by_all_characters a. Qed.

Lemma lower_char_v (a : ascii) :
  lower_char a = "v"%char -> (a = "v" \/ a = "V")%char.
Proof. by_all_characters a. Qed.

Lemma lower_wav (ext : string) : lower ext = ".wav"%string <-> wav_ext ext.
Proof.
  split.
  - destruct ext as [|a0 [|a1 [|a2 [|a3 [|a4 rest]]]]]; cbn [lower];
      intros H; try discriminate H.
    injection H as H0 H1 H2 H3. apply lower_char_dot in H0. subst a0.
    exists a1, a2, a3. split; [reflexivity|].
    split; [now apply lower_char_w|].
    split; [now apply lower_char_a | now apply lower_char_v].
  - intros (c1 & c2 & c3 & -> & [-> | ->] & [-> | ->] & [-> | ->]);
      reflexivity.
Qed.

Lemma wav_ext_tail (ext : string) :
  wav_ext ext ->
  exists e, ext = String extsep e
            /\ ~ In sep (list_ascii_of_string e)
            /\ ~ In extsep (list_ascii_of_string e).
Proof.
  intros (c1 & c2 & c3 & -> & [-> | ->] & [-> | ->] & [-> | ->]);
    eexists; (split; [reflexivity|]); split; cbn;
    intros [H | [H | [H | []]]]; discriminate H.
Qed.

End PathFacts.

Module GuiFacts.
Import OsPath Gui PathFacts.

(** ** Field updates *)

Lemma set_taskList_same w : set_taskList w (lwTaskList w) = w.
Proof. now destruct w. Qed.

Lemma set_taskList_twice w l1 l2 :
  set_taskList (set_taskList w l1) l2 = set_taskList w l2.
Proof. reflexivity. Qed.

(** ** What the list handlers append *)

Lemma add_files_appends paths : forall w,
  fold_left (fun w path => set_taskList w (lwTaskList w ++ [item_of_path path]))
            paths w
  = set_taskList w (lwTaskList w ++ map item_of_path paths).
Proof.
  induction paths as [|path paths IH]; intros w; cbn [fold_left map].
  - now rewrite app_nil_r, set_taskList_same.
  - rewrite IH, set_taskList_twice. cbn [set_taskList lwTaskList].
    now rewrite <- app_assoc.
Qed.

Lemma dropEvent_appends urls : forall w,
  dropEvent w urls
  = set_taskList w (lwTaskList w
                    ++ map (fun url => item_of_path (toLocalFile url))
                           (filter is_wav_url urls)).
Proof.
  induction urls as [|url urls IH]; intros w; cbn [dropEvent filter map].
  - now rewrite app_nil_r, set_taskList_same.
  - unfold is_wav_url at 1.
    destruct (negb (isLocalFile url)); [apply IH|].
    destruct (String.eqb (lower (snd (splitext (toLocalFile url)))) ".wav");
      cbn [negb]; [|apply IH].
    rewrite IH, set_taskList_twice. cbn [set_taskList lwTaskList map].
    now rewrite <- app_assoc.
Qed.

Lemma has_wav_existsb urls : has_wav urls = existsb is_wav_url urls.
Proof.
  induction urls as [|url urls IH]; [reflexivity|].
  cbn [has_wav existsb]. unfold is_wav_url at 1.
  destruct (negb (isLocalFile url)); [exact IH|].
  now destruct (String.eqb (lower (snd (splitext (toLocalFile url)))) ".wav").
Qed.

Lemma is_wav_url_spec url :
  is_wav_url url = true
  <-> isLocalFile url = true
      /\ lower (snd (splitext (toLocalFile url))) = ".wav"%string.
Proof.
  unfold is_wav_url. destruct (isLocalFile url); cbn [negb].
  - rewrite String.eqb_eq. tauto.
  - split; [discriminate | intros [H _]; discriminate H].
Qed.

(** ** Invariants of the window *)

Lemma init_invariant ui : run_invariant (init ui).
Proof.
  unfold run_invariant; cbn. repeat split; auto; discriminate.
Qed.

(** A handler that leaves the list, the workers and the flag as they are
    keeps the invariant. *)
Lemma invariant_frame w w' :
  lwTaskList w' = lwTaskList w -> workers w' = workers w ->
  processing w' = processing w ->
  run_invariant w -> run_invariant w'.
Proof.
  unfold run_invariant. intros -> -> ->. tauto.
Qed.

Lemma idle_invariant w :
  processing w = false -> workers w = [] -> run_invariant w.
Proof.
  unfold run_invariant. intros -> ->. cbn. repeat split; auto; discriminate.
Qed.

Ltac framed := eapply invariant_frame; [| | | eassumption]; reflexivity.

Lemma step_invariant w ev : run_invariant w -> run_invariant (step w ev).
Proof.
  intros Hinv. destruct ev; cbn [step].
  - (* browse *)
    unfold on_browse_output_dir.
    destruct (negb (String.eqb path "")); [framed | assumption].
  - (* add files *)
    unfold on_add_audio_files. destruct (processing w) eqn:Hp; [framed|].
    rewrite add_files_appends. destruct Hinv as (Hidle & _).
    apply idle_invariant; [exact Hp | exact (Hidle Hp)].
  - (* remove *)
    exact Hinv.
  - (* clear *)
    unfold on_clear_audio_list. destruct (processing w) eqn:Hp; [framed|].
    destruct Hinv as (Hidle & _).
    apply idle_invariant; [exact Hp | exact (Hidle Hp)].
  - (* about *)
    framed.
  - (* start *)
    unfold on_start. destruct (processing w) eqn:Hp; [framed|].
    destruct (Z.eqb_spec (Z.of_nat (List.length (lwTaskList w))) 0) as [H0 | H0];
      [assumption|].
    destruct Hinv as (Hidle & _). unfold run_invariant. cbn.
    rewrite (Hidle Hp). cbn. repeat split; auto; try discriminate.
    intros _ Hnil. apply H0. now rewrite Hnil.
  - (* one finished *)
    framed.
  - (* thread finished *)
    apply idle_invariant; reflexivity.
  - (* close *)
    unfold closeEvent. destruct (processing w); [framed | assumption].
  - (* drag enter *)
    unfold dragEnterEvent. destruct (has_wav urls); assumption.
  - (* drop *)
    rewrite dropEvent_appends. destruct Hinv as (Hidle & Hone & Hfiles).
    unfold run_invariant. cbn. repeat split; auto.
    intros Hp Hnil. apply app_eq_nil in Hnil as [Hnil _]. now apply Hfiles.
  - (* typing *)
    unfold type_text. destruct (lineEdit_enabled w le); [framed | assumption].
  - (* selecting *)
    unfold select_rows. destruct (lwTaskList_en (enabled w));
      [framed | assumption].
Qed.

Lemma reachable_invariant w : reachable w -> run_invariant w.
Proof.
  induction 1; [apply init_invariant | now apply step_invariant].
Qed.

(** ** The claims about the window's handlers *)

(** C6.  In every state the window can reach there is at most one worker, a
    worker exists only while the processing flag is set, and while the flag
    is set [_on_start] does nothing but show the warning: no worker is
    added, and the task list, the counters, the progress bar and the flag
    itself stay as they are. *)
Theorem one_run_at_a_time w :
  reachable w ->
  (List.length (workers w) <= 1)%nat
  /\ (workers w <> [] -> processing w = true)
  /\ (processing w = true ->
      on_start w = warningProcessNotFinished w
      /\ workers (on_start w) = workers w
      /\ lwTaskList (on_start w) = lwTaskList w
      /\ workCount (on_start w) = workCount w
      /\ workFinished (on_start w) = workFinished w
      /\ progressMaximum (on_start w) = progressMaximum w
      /\ progressValue (on_start w) = progressValue w
      /\ processing (on_start w) = true).
Proof.
  intros Hr. destruct (reachable_invariant w Hr) as (Hidle & Hone & _).
  split; [exact Hone|]. split.
  - intros Hw. destruct (processing w); [reflexivity|].
    now specialize (Hidle eq_refl).
  - intros Hp. unfold on_start. rewrite Hp. cbn. now rewrite Hp.
Qed.

Lemma one_run_at_a_time_witness :
  let w := step (init WorkThread.three_files) EvStart in
  (List.length (workers w) <= 1)%nat
  /\ (workers w <> [] -> processing w = true)
  /\ (processing w = true ->
      on_start w = warningProcessNotFinished w
      /\ workers (on_start w) = workers w
      /\ lwTaskList (on_start w) = lwTaskList w
      /\ workCount (on_start w) = workCount w
      /\ workFinished (on_start w) = workFinished w
      /\ progressMaximum (on_start w) = progressMaximum w
      /\ progressValue (on_start w) = progressValue w
      /\ processing (on_start w) = true).
Proof.
  apply (one_run_at_a_time (step (init WorkThread.three_files) EvStart)).
  apply reach_step, reach_init.
Defined.

(** C7.  In every state the window can reach, [_on_start] with an empty task
    list returns the window exactly as it was: no worker is started, no
    counter or widget changes, and no message box is shown. *)
Theorem start_without_files w :
  reachable w -> lwTaskList w = [] -> on_start w = w.
Proof.
  intros Hr Hnil. destruct (reachable_invariant w Hr) as (_ & _ & Hfiles).
  unfold on_start. destruct (processing w) eqn:Hp.
  - now destruct (Hfiles eq_refl).
  - now rewrite Hnil.
Qed.

Lemma start_without_files_witness :
  on_start (step (init WorkThread.three_files) EvClear)
  = step (init WorkThread.three_files) EvClear.
Proof.
  apply (start_without_files (step (init WorkThread.three_files) EvClear)).
  - apply reach_step, reach_init.
  - reflexivity.
Defined.

(** C8.  [_on_remove_audio_file] returns the window unchanged, whatever the
    task list and the selection are: no item is removed and no other state
    is touched. *)
Theorem remove_audio_file_changes_nothing w :
  on_remove_audio_file w = w
  /\ lwTaskList (on_remove_audio_file w) = lwTaskList w
  /\ selectedRows (on_remove_audio_file w) = selectedRows w.
Proof. repeat split. Qed.

Example lower_extension :
  map lower [".WAV"; ".Wav"; ".wav"; ".wave"]%string
  = [".wav"; ".wav"; ".wav"; ".wave"]%string.
Proof. reflexivity. Qed.

Example drop_example :
  map item_path
      (lwTaskList
         (dropEvent (init WorkThread.three_files)
            [mkUrl true "/in/d.WAV"; mkUrl false "/in/e.wav";
             mkUrl true "/in/f.mp3"; mkUrl true "/in/.wav";
             mkUrl true "/in/g.wav"]))
  = ["/in/a.wav"; "/in/bad.wav"; "/in/c.wav"; "/in/d.WAV"; "/in/g.wav"]%string.
Proof. reflexivity. Qed.

(** C9.  [dropEvent] appends to the task list one item per URL that is a
    local file whose extension, as [os.path.splitext] gives it, is [.wav]
    once lowered; the items come in URL order and hold the full path; the
    other URLs add nothing and nothing else in the window changes.
    [dragEnterEvent] leaves the window alone and accepts an event that
    arrives unaccepted exactly when one of the URLs is such a file.  What
    the test means for a path: a URL that passes has a path ending in a dot
    followed by [w], [a], [v], each in either case; and a local URL whose
    path is any characters, then a character that is neither a separator
    nor a dot, then such an ending, passes.  The text of an item is what
    follows the last separator of its path. *)
Theorem drop_appends_local_wav_files w urls :
  dropEvent w urls
  = set_taskList w
      (lwTaskList w
       ++ map (fun url => mkItem (fileName (toLocalFile url)) (toLocalFile url))
              (filter is_wav_url urls))
  /\ (forall url,
        In url (filter is_wav_url urls)
        <-> In url urls
            /\ isLocalFile url = true
            /\ lower (snd (splitext (toLocalFile url))) = ".wav"%string)
  /\ fst (dragEnterEvent w urls false) = w
  /\ (snd (dragEnterEvent w urls false) = true
      <-> exists url,
            In url urls
            /\ isLocalFile url = true
            /\ lower (snd (splitext (toLocalFile url))) = ".wav"%string)
  /\ (forall url,
        In url (filter is_wav_url urls) ->
        exists root ext,
          toLocalFile url = (root ++ ext)%string /\ wav_ext ext)
  /\ (forall url r x ext,
        In url urls ->
        isLocalFile url = true ->
        toLocalFile url = (r ++ String x ext)%string ->
        x <> sep -> x <> extsep -> wav_ext ext ->
        In url (filter is_wav_url urls)
        /\ snd (dragEnterEvent w urls false) = true)
  /\ (forall dir base,
        ~ In sep (list_ascii_of_string base) ->
        fileName (dir ++ String sep base) = base).
Proof.
  assert (Hpass : forall url r x ext,
             isLocalFile url = true ->
             toLocalFile url = (r ++ String x ext)%string ->
             x <> sep -> x <> extsep -> wav_ext ext ->
             is_wav_url url = true).
  { intros url r x ext Hlocal Hpath Hxs Hxd Hext.
    apply is_wav_url_spec. split; [exact Hlocal|].
    destruct (wav_ext_tail ext Hext) as (e & He & Hes & Hed).
    rewrite Hpath, He, (splitext_ext r e x Hxs Hxd Hes Hed). cbn [snd].
    rewrite <- He. now apply lower_wav. }
  split; [apply dropEvent_appends|]. split; [|split; [|split; [|split; [|split]]]].
  - intros url. rewrite filter_In, is_wav_url_spec. tauto.
  - unfold dragEnterEvent. now destruct (has_wav urls).
  - unfold dragEnterEvent. rewrite has_wav_existsb.
    destruct (existsb is_wav_url urls) eqn:He; cbn [snd].
    + apply existsb_exists in He as (url & Hin & Hwav).
      apply is_wav_url_spec in Hwav. split; [|reflexivity].
      intros _. exists url. tauto.
    + split; [discriminate|]. intros (url & Hin & Hwav).
      apply is_wav_url_spec in Hwav.
      assert (existsb is_wav_url urls = true) as Ht
        by (apply existsb_exists; eauto).
      congruence.
  - intros url Hin. apply filter_In in Hin as (_ & Hwav).
    apply is_wav_url_spec in Hwav as (_ & Hlow).
    exists (fst (splitext (toLocalFile url))), (snd (splitext (toLocalFile url))).
    split; [symmetry; apply splitext_joins | now apply lower_wav].
  - intros url r x ext Hin Hlocal Hpath Hxs Hxd Hext.
    pose proof (Hpass url r x ext Hlocal Hpath Hxs Hxd Hext) as Hwav.
    split; [apply filter_In; auto|].
    unfold dragEnterEvent. rewrite has_wav_existsb.
    assert (existsb is_wav_url urls = true) as ->
      by (apply existsb_exists; eauto).
    reflexivity.
  - intros dir base Hb. apply basename_app. exact Hb.
Qed.

Lemma drop_appends_local_wav_files_witness :
  lwTaskList
    (dropEvent (init WorkThread.two_files)
       [mkUrl true "/in/d.WAV"; mkUrl false "/in/e.wav";
        mkUrl true "/in/f.mp3"; mkUrl true "/in/.wav";
        mkUrl true "/in/g.wav"; mkUrl true "/in.d/h"])
  = [mkItem "a.wav" "/in/a.wav"; mkItem "c.wav" "/in/c.wav";
     mkItem "d.WAV" "/in/d.WAV"; mkItem "g.wav" "/in/g.wav"].
Proof.
  rewrite (proj1 (drop_appends_local_wav_files (init WorkThread.two_files)
                    [mkUrl true "/in/d.WAV"; mkUrl false "/in/e.wav";
                     mkUrl true "/in/f.mp3"; mkUrl true "/in/.wav";
                     mkUrl true "/in/g.wav"; mkUrl true "/in.d/h"])).
  reflexivity.
Defined.

End GuiFacts.

Module WorkThreadFacts.
Import OsPath Gui WorkThread PathFacts.

Section RunFacts.
Variable P : Platform.

(** ** Sequencing *)

Lemma bind_try {A B} (o : option A) (k : A -> M P B) w :
  bind P (try P o) k w = match o with
                         | Some a => k a w
                         | None => Exn w
                         end.
Proof. now destruct o. Qed.

Lemma for_each_app {A} (l1 l2 : list A) (body : A -> M P unit) : forall w,
  for_each P (l1 ++ l2) body w
  = match for_each P l1 body w with
    | Ok _ w' => for_each P l2 body w'
    | Exn w' => Exn w'
    end.
Proof.
  induction l1 as [|x l1 IH]; intros w; [reflexivity|].
  cbn [app for_each]. unfold bind.
  destruct (body x w) as [[] w1 | w1]; [apply IH | reflexivity].
Qed.

(** ** Signals and writes of a log *)

Lemma emitted_app (l1 l2 : list (Effect P)) :
  emitted P (l1 ++ l2) = emitted P l1 ++ emitted P l2.
Proof. apply flat_map_app. Qed.

Lemma writes_app (l1 l2 : list (Effect P)) :
  writes P (l1 ++ l2) = writes P l1 ++ writes P l2.
Proof. apply flat_map_app. Qed.

(** ** The loop over the chunks *)

Lemma write_loop {A} (path : A -> string) (chunk : A -> Audio P) (sr : Z)
  (l : list A) : forall w,
  match for_each P l (fun x => sf_write P (path x) (chunk x) sr) w with
  | Ok _ w' =>
      dirs P w' = dirs P w
      /\ log P w' = log P w ++ map (fun x => SfWrite (path x) (chunk x) sr) l
  | Exn w' =>
      dirs P w' = dirs P w
      /\ exists done, log P w' = log P w
                                 ++ map (fun x => SfWrite (path x) (chunk x) sr) done
  end.
Proof.
  induction l as [|x l IH]; intros w.
  - cbn. now rewrite app_nil_r.
  - cbn [for_each]. unfold bind, sf_write at 1.
    destruct (sf_writable P (path x)).
    + specialize (IH (mkWorld P (dirs P w)
                        (log P w ++ [SfWrite (path x) (chunk x) sr]))).
      destruct (for_each P l _ _) as [[] w' | w']; cbn [dirs log] in IH.
      * destruct IH as (Hd & Hl). split; [exact Hd|].
        rewrite Hl, <- app_assoc. reflexivity.
      * destruct IH as (Hd & done & Hl). split; [exact Hd|].
        exists (x :: done). rewrite Hl, <- app_assoc. reflexivity.
    + split; [reflexivity|]. exists []. cbn. now rewrite app_nil_r.
Qed.

(** ** One file *)

Lemma if_negb {A} (b : bool) (x y : A) :
  (if negb b then x else y) = (if b then y else x).
Proof. now destruct b. Qed.

Lemma run_file_outcome win f w :
  match run_file P win f w with
  | Ok _ w' =>
      exists a sr chunks,
        sf_read P f = Some (a, sr)
        /\ sliced P win a sr chunks
        /\ dirs P w' = dirs_after_mkpath P win w
        /\ log P w' = log P w ++ mkpath_effects P win w
                            ++ chunk_writes P win f a sr chunks
                            ++ [OneFinished]
  | Exn w' =>
      exists partial, log P w' = log P w ++ partial /\ emitted P partial = []
  end.
Proof.
  assert (Hnone : exists partial : list (Effect P),
             log P w = log P w ++ partial /\ emitted P partial = [])
    by (exists []; now rewrite app_nil_r).
  unfold run_file. rewrite bind_try.
  destruct (sf_read P f) as [[a sr]|] eqn:Hread; [|exact Hnone].
  cbn [fst snd]. rewrite !if_negb. fold (multi_channel P a).
  fold (slicer_input P a).
  rewrite bind_try.
  destruct (py_float P (leThreshold win)) as [th|] eqn:Hth; [|exact Hnone].
  rewrite bind_try.
  destruct (py_int P (leMinLen win)) as [ml|] eqn:Hml; [|exact Hnone].
  rewrite bind_try.
  destruct (py_int P (leMinInterval win)) as [mi|] eqn:Hmi; [|exact Hnone].
  rewrite bind_try.
  destruct (py_int P (leHopSize win)) as [hs|] eqn:Hhs; [|exact Hnone].
  rewrite bind_try.
  destruct (py_int P (leMaxSilence win)) as [ms|] eqn:Hms; [|exact Hnone].
  rewrite bind_try.
  destruct (Slicer P sr th ml mi hs ms) as [slicer|] eqn:Hsl; [|exact Hnone].
  rewrite bind_try.
  destruct (get_slice_tags P slicer (slicer_input P a)) as [[tags total]|] eqn:Htags;
    [|exact Hnone].
  cbn [fst snd]. rewrite bind_try.
  destruct (slice P slicer (slicer_input P a) tags total) as [chunks|] eqn:Hchunks;
    [|exact Hnone].
  clear Hnone.
  assert (Hsliced : sliced P win a sr chunks).
  { exists th, ml, mi, hs, ms, slicer, tags, total. repeat split; assumption. }
  unfold bind at 1.
  set (prepare := if String.eqb (leOutputDir win) "" then _ else _).
  assert (Hprep : prepare w
                  = Ok (out_dir_of P win f)
                       (mkWorld P (dirs_after_mkpath P win w)
                                  (log P w ++ mkpath_effects P win w))).
  { subst prepare. unfold out_dir_of, dirs_after_mkpath, mkpath_effects.
    destruct (String.eqb (leOutputDir win) "").
    - unfold ret. rewrite app_nil_r. now destruct w.
    - unfold bind, dir_exists.
      destruct (existsb (String.eqb (leOutputDir win)) (dirs P w)); cbn.
      + rewrite app_nil_r. now destruct w.
      + reflexivity. }
  rewrite Hprep. unfold bind at 1.
  pose proof (write_loop
                (fun ic : nat * Audio P =>
                   join (out_dir_of P win f) (chunk_name f (fst ic)))
                (fun ic : nat * Audio P =>
                   if negb (multi_channel P a) then snd ic
                   else transpose P (snd ic))
                sr (enumerate chunks)
                (mkWorld P (dirs_after_mkpath P win w)
                           (log P w ++ mkpath_effects P win w))) as Hloop.
  cbv beta in Hloop.
  destruct (for_each P (enumerate chunks) _ _) as [[] w1 | w1];
    cbn [dirs log] in Hloop.
  - destruct Hloop as (Hd & Hl). unfold effect. cbn [dirs log].
    exists a, sr, chunks. repeat split; try assumption.
    rewrite Hl, <- !app_assoc. do 2 f_equal. unfold chunk_writes.
    f_equal. apply map_ext. intros ic. unfold written_chunk.
    now rewrite if_negb.
  - destruct Hloop as (_ & done & Hl).
    exists (mkpath_effects P win w
            ++ map (fun ic : nat * Audio P =>
                      SfWrite (join (out_dir_of P win f) (chunk_name f (fst ic)))
                        (if negb (multi_channel P a) then snd ic
                         else transpose P (snd ic)) sr) done).
    split; [now rewrite Hl, <- app_assoc|].
    rewrite emitted_app.
    replace (emitted P (mkpath_effects P win w)) with (@nil Signal).
    2:{ unfold mkpath_effects. destruct (String.eqb (leOutputDir win) "");
        [reflexivity|].
        now destruct (existsb (String.eqb (leOutputDir win)) (dirs P w)). }
    cbn [app]. clear. induction done as [|x done IH]; [reflexivity | exact IH].
Qed.

Lemma emitted_mkpath win w : emitted P (mkpath_effects P win w) = [].
Proof.
  unfold mkpath_effects. destruct (String.eqb (leOutputDir win) "");
    [reflexivity|].
  now destruct (existsb (String.eqb (leOutputDir win)) (dirs P w)).
Qed.

Lemma emitted_chunk_writes win f a sr chunks :
  emitted P (chunk_writes P win f a sr chunks) = [].
Proof.
  unfold chunk_writes. induction (enumerate chunks) as [|ic l IH];
    [reflexivity | exact IH].
Qed.

Lemma writes_mkpath win w : writes P (mkpath_effects P win w) = [].
Proof.
  unfold mkpath_effects. destruct (String.eqb (leOutputDir win) "");
    [reflexivity|].
  now destruct (existsb (String.eqb (leOutputDir win)) (dirs P w)).
Qed.

Lemma writes_chunk_writes win f a sr chunks :
  writes P (chunk_writes P win f a sr chunks)
  = map (fun ic => (join (out_dir_of P win f) (chunk_name f (fst ic)),
                    written_chunk P a (snd ic), sr))
        (enumerate chunks).
Proof.
  unfold chunk_writes. induction (enumerate chunks) as [|ic l IH];
    [reflexivity|]. cbn [map]. cbn [writes flat_map app]. f_equal. exact IH.
Qed.

Lemma run_file_ok win f w w' :
  run_file P win f w = Ok tt w' ->
  exists a sr chunks,
    sf_read P f = Some (a, sr)
    /\ sliced P win a sr chunks
    /\ dirs P w' = dirs_after_mkpath P win w
    /\ log P w' = log P w ++ mkpath_effects P win w
                        ++ chunk_writes P win f a sr chunks
                        ++ [OneFinished].
Proof.
  intros Hrun. pose proof (run_file_outcome win f w) as H.
  now rewrite Hrun in H.
Qed.

Lemma run_file_exn win f w w' :
  run_file P win f w = Exn w' ->
  exists partial, log P w' = log P w ++ partial /\ emitted P partial = [].
Proof.
  intros Hrun. pose proof (run_file_outcome win f w) as H.
  now rewrite Hrun in H.
Qed.

Lemma run_file_block win f w w' :
  run_file P win f w = Ok tt w' ->
  exists b, log P w' = log P w ++ b
            /\ file_block P win f b /\ notified_at_end P b.
Proof.
  intros Hrun. destruct (run_file_ok _ _ _ _ Hrun) as (a & sr & chunks & _ & _ & _ & Hl).
  exists (mkpath_effects P win w ++ chunk_writes P win f a sr chunks
          ++ [OneFinished]).
  split; [exact Hl|]. split.
  - exists w, w'. auto.
  - exists (mkpath_effects P win w ++ chunk_writes P win f a sr chunks).
    split; [now rewrite <- app_assoc|].
    now rewrite emitted_app, emitted_mkpath, emitted_chunk_writes.
Qed.

Lemma decode_failure_raises win f w :
  sf_read P f = None -> run_file P win f w = Exn w.
Proof. intros H. unfold run_file. now rewrite bind_try, H. Qed.

(** ** The whole list *)

Lemma emitted_blocks (blocks : list (list (Effect P))) :
  Forall (notified_at_end P) blocks ->
  emitted P (List.concat blocks) = repeat SigOneFinished (List.length blocks).
Proof.
  induction 1 as [|b blocks (before & -> & Hb) _ IH]; [reflexivity|].
  cbn [List.concat List.length repeat].
  rewrite !emitted_app, Hb, IH. reflexivity.
Qed.

Lemma run_trace win files : forall w,
  match run P win files w with
  | Ok _ w' =>
      exists blocks,
        Forall2 (file_block P win) files blocks
        /\ Forall (notified_at_end P) blocks
        /\ log P w' = log P w ++ List.concat blocks
  | Exn w' =>
      exists done bad rest blocks partial,
        files = done ++ bad :: rest
        /\ Forall2 (file_block P win) done blocks
        /\ Forall (notified_at_end P) blocks
        /\ log P w' = log P w ++ List.concat blocks ++ partial
        /\ emitted P partial = []
  end.
Proof.
  induction files as [|f files IH]; intros w.
  - cbn. exists []. repeat split; auto. now rewrite app_nil_r.
  - unfold run. cbn [for_each]. unfold bind.
    destruct (run_file P win f w) as [[] w1 | w1] eqn:Hf.
    + destruct (run_file_block _ _ _ _ Hf) as (b & Hl & Hb & Hn).
      specialize (IH w1). fold (run P win files w1).
      destruct (run P win files w1) as [[] w2 | w2].
      * destruct IH as (blocks & H2 & Hall & Hl2).
        exists (b :: blocks). repeat split; auto.
        cbn [List.concat]. rewrite Hl2, Hl, <- app_assoc. reflexivity.
      * destruct IH as (done & bad & rest & blocks & partial
                        & -> & H2 & Hall & Hl2 & Hp).
        exists (f :: done), bad, rest, (b :: blocks), partial.
        repeat split; auto.
        cbn [List.concat]. rewrite Hl2, Hl, <- !app_assoc. reflexivity.
    + destruct (run_file_exn _ _ _ _ Hf) as (partial & Hl & Hp).
      exists [], f, files, [], partial. repeat split; auto.
Qed.

(** ** The window while the signals of a worker arrive *)

Lemma deliver_one_finished n : forall w,
  deliver w (repeat SigOneFinished (S n))
  = set_progress (set_counts w (workCount w) (workFinished w + Z.of_nat (S n)))
      (progressMinimum w) (progressMaximum w) (workFinished w + Z.of_nat (S n)).
Proof.
  induction n as [|n IH]; intros w.
  - reflexivity.
  - change (deliver w (repeat SigOneFinished (S (S n))))
      with (deliver (oneFinished w) (repeat SigOneFinished (S n))).
    rewrite IH. destruct w. unfold oneFinished, set_progress, set_counts.
    cbn -[Z.of_nat Z.add]. f_equal; lia.
Qed.

Lemma deliver_app w sigs1 sigs2 :
  deliver w (sigs1 ++ sigs2) = deliver (deliver w sigs1) sigs2.
Proof. apply fold_left_app. Qed.

(** ** Arrays written *)

Lemma written_shape a c :
  array_laws P ->
  (List.length (shape P a) <= 2)%nat ->
  List.length (shape P c) = List.length (shape P (slicer_input P a)) ->
  removelast (shape P c) = removelast (shape P (slicer_input P a)) ->
  List.length (shape P (written_chunk P a c)) = List.length (shape P a)
  /\ List.tl (shape P (written_chunk P a c)) = List.tl (shape P a).
Proof.
  intros (HT & _ & _) Hle. unfold slicer_input, written_chunk, multi_channel.
  destruct (Nat.ltb_spec 1 (List.length (shape P a))) as [Hmulti | Hmono].
  - rewrite !HT. intros Hlen Hfront.
    destruct (shape P a) as [|n [|ch [|x rest]]]; cbn in Hmulti, Hle; try lia.
    cbn in Hlen, Hfront.
    destruct (shape P c) as [|x [|y [|z rest]]]; cbn in Hlen; try lia.
    cbn in Hfront. injection Hfront as ->. cbn. auto.
  - intros Hlen Hfront.
    destruct (shape P a) as [|n [|ch rest]]; cbn in Hmono; try lia;
      destruct (shape P c) as [|x [|y rest']]; cbn in Hlen; try lia; auto.
Qed.

Lemma enumerate_from_fst {A} (l : list A) : forall i,
  map fst (enumerate_from i l) = seq i (List.length l).
Proof.
  induction l as [|x l IH]; intros i; [reflexivity|].
  cbn. now rewrite IH.
Qed.

Lemma enumerate_from_snd {A} (l : list A) : forall i,
  map snd (enumerate_from i l) = l.
Proof.
  induction l as [|x l IH]; intros i; [reflexivity|].
  cbn. now rewrite IH.
Qed.

End RunFacts.

(** ** The small platform *)

Lemma halves_shape a c :
  In c (halves a) ->
  List.length c = List.length a /\ removelast c = removelast a.
Proof.
  unfold halves. rewrite <- (rev_involutive a) at 2 3.
  destruct (rev a) as [|n front]; [contradiction|].
  cbn [rev]. intros [<- | [<- | []]];
    rewrite !length_app, !removelast_last; auto.
Qed.

Lemma small_array_laws : array_laws small.
Proof.
  split; [reflexivity|]. split.
  - intros f a sr. cbn. unfold small_read.
    destruct (String.eqb f "/in/a.wav"); [intros [= <- _]; cbn; lia|].
    destruct (String.eqb f "/in/c.wav"); [intros [= <- _]; cbn; lia|].
    discriminate.
  - intros s a tags total cs c. cbn. intros [= <-]. apply halves_shape.
Qed.

(** ** The claims about a run *)

Example run_three_files :
  run small three_files ["/in/a.wav"; "/in/bad.wav"; "/in/c.wav"]%string empty_world
  = Exn (mkWorld small ["/out"%string] (MkPath "/out" :: a_effects)).
Proof. reflexivity. Qed.

(** C3, as stated, fails: of three files whose second cannot be decoded, the
    run raises at the second; the third, which is processed without error
    when it is alone, is never written nor notified, and what the run leaves
    behind holds no record of the failure. *)
Lemma decode_failure_stops_the_batch :
  sf_read small "/in/bad.wav" = None
  /\ run small three_files ["/in/c.wav"]%string empty_world
     = Ok tt (mkWorld small ["/out"%string] (MkPath "/out" :: c_effects))
  /\ run small three_files
       ["/in/a.wav"; "/in/bad.wav"; "/in/c.wav"]%string empty_world
     = Exn (mkWorld small ["/out"%string] (MkPath "/out" :: a_effects)).
Proof. repeat split. Qed.

(** C3 (amended).  When decoding one input file of a batch fails, the
    exception leaves [run] at that file: the files before it have been
    processed and notified, and the run ends raising in exactly the state
    they left, so nothing is written, notified or recorded for the failing
    file or for any file after it. *)
Theorem decode_failure_aborts_run P win done bad rest w w1 :
  run P win done w = Ok tt w1 ->
  sf_read P bad = None ->
  run P win (done ++ bad :: rest) w = Exn w1.
Proof.
  intros Hdone Hbad. unfold run in *. rewrite for_each_app, Hdone.
  cbn [for_each]. unfold bind. now rewrite decode_failure_raises.
Qed.

Lemma decode_failure_aborts_run_witness :
  run small three_files
      (["/in/a.wav"%string] ++ "/in/bad.wav"%string :: ["/in/c.wav"%string])
      empty_world
  = Exn (mkWorld small ["/out"%string] (MkPath "/out" :: a_effects)).
Proof.
  apply (decode_failure_aborts_run small three_files
           ["/in/a.wav"%string] "/in/bad.wav" ["/in/c.wav"%string]
           empty_world); reflexivity.
Defined.

(** C4.  A batch started from the window on its [n] listed files emits one
    [oneFinished] per file processed to its end, each as the last effect of
    that file's block and the blocks in list order.  When [run] returns,
    all [n] blocks are there, the thread's signals are the [n]
    notifications followed by the single [finished], and once the window has
    handled them the finished count, the work count and the progress value
    are [n], the worker list is empty, the processing flag is cleared and
    exactly one "Slicing complete!" box has been added.  When [run] raises,
    the notifications are those of the files completed before. *)
Theorem batch_notifications P win w :
  processing win = false ->
  lwTaskList win <> [] ->
  let started := on_start win in
  let files := map item_path (lwTaskList win) in
  let n := List.length files in
  workers started = workers win ++ [mkWorker files]
  /\ match run P started files w with
     | Ok _ w' =>
         exists blocks,
           Forall2 (file_block P started) files blocks
           /\ Forall (notified_at_end P) blocks
           /\ log P w' = log P w ++ List.concat blocks
           /\ thread_signals P (List.concat blocks)
              = repeat SigOneFinished n ++ [SigFinished]
           /\ let final := deliver started (thread_signals P (List.concat blocks)) in
              workFinished final = Z.of_nat n
              /\ workCount final = Z.of_nat n
              /\ progressValue final = Z.of_nat n
              /\ progressMaximum final = Z.of_nat n
              /\ workers final = []
              /\ processing final = false
              /\ dialogs final
                 = dialogs win
                   ++ [Information (applicationName win) "Slicing complete!"]
     | Exn w' =>
         exists done bad rest blocks partial,
           files = done ++ bad :: rest
           /\ Forall2 (file_block P started) done blocks
           /\ Forall (notified_at_end P) blocks
           /\ log P w' = log P w ++ List.concat blocks ++ partial
           /\ emitted P (List.concat blocks ++ partial)
              = repeat SigOneFinished (List.length done)
     end.
Proof.
  intros Hp Hne started files n.
  assert (Hn : exists m, n = S m).
  { subst n files. rewrite length_map.
    destruct (lwTaskList win); [congruence | cbn; eauto]. }
  assert (Hstart : started
                   = set_workers
                       (setProcessing
                          (set_counts
                             (set_progress win (progressMinimum win) (Z.of_nat n) 0)
                             (Z.of_nat n) 0) true)
                       (workers win ++ [mkWorker files])).
  { subst started n files. unfold on_start. rewrite Hp, length_map.
    destruct (Z.eqb_spec (Z.of_nat (List.length (lwTaskList win))) 0) as [H0|_];
      [|reflexivity].
    destruct (lwTaskList win); [congruence | cbn in H0; lia]. }
  split; [now rewrite Hstart|].
  pose proof (run_trace P started files w) as Htrace.
  destruct (run P started files w) as [[] w' | w'].
  - destruct Htrace as (blocks & H2 & Hall & Hl).
    exists blocks.
    assert (Hsig : thread_signals P (List.concat blocks)
                   = repeat SigOneFinished n ++ [SigFinished]).
    { unfold thread_signals. rewrite (emitted_blocks P blocks Hall).
      subst n. now rewrite (Forall2_length H2). }
    split; [exact H2|]. split; [exact Hall|]. split; [exact Hl|].
    split; [exact Hsig|].
    rewrite Hsig, Hstart. clear Hsig Hstart. clearbody n.
    destruct Hn as (m & ->).
    rewrite deliver_app, deliver_one_finished.
    cbn -[Z.of_nat Z.add]. repeat split; lia.
  - destruct Htrace as (done & bad & rest & blocks & partial
                        & Hfiles & H2 & Hall & Hl & Hpart).
    exists done, bad, rest, blocks, partial. repeat split; auto.
    rewrite emitted_app, Hpart, app_nil_r, (emitted_blocks P blocks Hall).
    now rewrite (Forall2_length H2).
Qed.

Lemma batch_notifications_witness :
  workers (on_start two_files)
  = [mkWorker ["/in/a.wav"; "/in/c.wav"]%string]
  /\ exists blocks,
       Forall2 (file_block small (on_start two_files))
               ["/in/a.wav"; "/in/c.wav"]%string blocks
       /\ Forall (notified_at_end small) blocks
       /\ MkPath "/out" :: a_effects ++ c_effects = [] ++ List.concat blocks
       /\ thread_signals small (List.concat blocks)
          = [SigOneFinished; SigOneFinished; SigFinished]
       /\ let final := deliver (on_start two_files)
                         (thread_signals small (List.concat blocks)) in
          workFinished final = 2
          /\ workCount final = 2
          /\ progressValue final = 2
          /\ progressMaximum final = 2
          /\ workers final = []
          /\ processing final = false
          /\ dialogs final = [Information "Audio Slicer" "Slicing complete!"].
Proof.
  apply (batch_notifications small two_files empty_world);
    [reflexivity | discriminate].
Defined.

(** C5.  A file processed to its end is read once, and one file is written
    per chunk the slicer returns, in that order and after the writes that
    came before: chunk number [i], counted from zero, goes to
    [<basename without its last extension>_<i>.wav], joined to the output
    directory of the window or, when that is empty, to the directory of the
    source file's absolute path.  A given output directory exists when the
    chunks are written, the run creating it with [mkpath] first when it
    does not.  Every write carries the sample rate the file was read with,
    and the array written has the axes and the channel axis of the array
    read.  Spelled out on the paths: with no output directory and the
    source's absolute path being [dir/base], the chunks are written to
    [dir/<name>], in the directory of the source; with an output directory
    that does not end in a separator, to [<directory>/<name>]; for a source
    [dir/stem.ext] the name of chunk [i] is [stem_<i>.wav]; and [<i>] is
    the decimal numeral of [i]. *)
Theorem chunk_files_written P win filename w w' :
  array_laws P ->
  run_file P win filename w = Ok tt w' ->
  exists a sr chunks,
    sf_read P filename = Some (a, sr)
    /\ sliced P win a sr chunks
    /\ writes P (log P w')
       = writes P (log P w)
         ++ map (fun ic =>
                   (join (if String.eqb (leOutputDir win) ""
                          then dirname (abspath P filename)
                          else leOutputDir win)
                         (rsplit_dot_head (basename filename) ++ "_"
                          ++ str_of_index (fst ic) ++ ".wav")%string,
                    written_chunk P a (snd ic), sr))
                (enumerate chunks)
    /\ map fst (enumerate chunks) = seq 0 (List.length chunks)
    /\ map snd (enumerate chunks) = chunks
    /\ (leOutputDir win <> ""%string ->
        In (leOutputDir win) (dirs P w')
        /\ (~ In (leOutputDir win) (dirs P w) ->
            exists later,
              log P w' = log P w ++ MkPath (leOutputDir win) :: later
              /\ writes P later = skipn (List.length (writes P (log P w)))
                                        (writes P (log P w'))))
    /\ (forall c, In c chunks ->
          List.length (shape P (written_chunk P a c)) = List.length (shape P a)
          /\ List.tl (shape P (written_chunk P a c)) = List.tl (shape P a))
    /\ (leOutputDir win = ""%string ->
        forall dir base,
          abspath P filename = (dir ++ String sep base)%string ->
          ~ In sep (list_ascii_of_string base) ->
          dir <> ""%string -> endswith sep dir = false ->
          map (fun x => fst (fst x)) (writes P (log P w'))
          = map (fun x => fst (fst x)) (writes P (log P w))
            ++ map (fun i => (dir ++ String sep (chunk_name filename i))%string)
                   (seq 0 (List.length chunks)))
    /\ (leOutputDir win <> ""%string ->
        endswith sep (leOutputDir win) = false ->
        map (fun x => fst (fst x)) (writes P (log P w'))
        = map (fun x => fst (fst x)) (writes P (log P w))
          ++ map (fun i => (leOutputDir win
                            ++ String sep (chunk_name filename i))%string)
                 (seq 0 (List.length chunks)))
    /\ (forall dir stem ext,
          filename = (dir ++ String sep (stem ++ String extsep ext))%string ->
          ~ In sep (list_ascii_of_string (stem ++ String extsep ext)) ->
          ~ In extsep (list_ascii_of_string ext) ->
          forall i,
            chunk_name filename i
            = (stem ++ "_" ++ str_of_index i ++ ".wav")%string)
    /\ (forall i,
          NilZero.uint_of_string (str_of_index i) = Some (Nat.to_uint i)
          /\ Nat.of_uint (Nat.to_uint i) = i).
Proof.
  intros Hlaws Hrun.
  destruct (run_file_ok P _ _ _ _ Hrun)
    as (a & sr & chunks & Hread & Hsliced & Hdirs & Hlog).
  assert (Hpaths : forall out,
             out_dir_of P win filename = out ->
             out <> ""%string -> endswith sep out = false ->
             map (fun x => fst (fst x)) (writes P (log P w'))
             = map (fun x => fst (fst x)) (writes P (log P w))
               ++ map (fun i => (out ++ String sep (chunk_name filename i))%string)
                      (seq 0 (List.length chunks))).
  { intros out Hout Hne Hend.
    rewrite Hlog, !writes_app, writes_mkpath, writes_chunk_writes.
    cbn [app]. rewrite app_nil_r, map_app. f_equal.
    rewrite map_map. cbn [fst].
    rewrite <- (enumerate_from_fst chunks 0), map_map.
    apply map_ext. intros ic. rewrite Hout.
    rewrite (join_relative out _ (chunk_name_relative filename (fst ic))).
    apply String.eqb_neq in Hne. rewrite Hne, Hend. cbn [orb].
    now rewrite append_assoc_s. }
  assert (Hwrites : writes P (log P w')
                    = writes P (log P w)
                      ++ writes P (chunk_writes P win filename a sr chunks)).
  { rewrite Hlog, !writes_app, writes_mkpath. cbn [app].
    now rewrite app_nil_r. }
  exists a, sr, chunks.
  split; [exact Hread|]. split; [exact Hsliced|]. split.
  { rewrite Hwrites, writes_chunk_writes. reflexivity. }
  split; [apply enumerate_from_fst|]. split; [apply enumerate_from_snd|].
  split; [|split; [|split; [|split; [|split]]]].
  - intros Hgiven. apply String.eqb_neq in Hgiven.
    rewrite Hdirs. unfold dirs_after_mkpath. rewrite Hgiven.
    destruct (existsb (String.eqb (leOutputDir win)) (dirs P w)) eqn:Hex.
    + apply existsb_exists in Hex as (d & Hin & Heq).
      apply String.eqb_eq in Heq. subst d. split; [exact Hin | tauto].
    + split; [now left|]. intros _.
      exists (chunk_writes P win filename a sr chunks ++ [OneFinished]).
      split.
      * rewrite Hlog. unfold mkpath_effects. now rewrite Hgiven, Hex.
      * rewrite Hwrites, skipn_app, skipn_all, Nat.sub_diag. cbn [app skipn].
        rewrite writes_app. cbn. now rewrite app_nil_r.
  - intros c Hin. destruct Hsliced as (th & ml & mi & hs & ms & slicer & tags
                                       & total & _ & _ & _ & _ & _ & _ & _ & Hsl).
    pose proof Hlaws as (HT & Hrd & Hcut).
    destruct (Hcut _ _ _ _ _ _ Hsl Hin) as (Hlen & Hfront).
    apply written_shape;
      [exact Hlaws | exact (Hrd _ _ _ Hread) | exact Hlen | exact Hfront].
  - intros Hempty dir base Habs Hbase Hne Hend.
    apply Hpaths; [|exact Hne | exact Hend].
    unfold out_dir_of. rewrite Hempty, Habs. cbn [String.eqb].
    now apply dirname_app.
  - intros Hgiven Hend. apply Hpaths; [|exact Hgiven | exact Hend].
    unfold out_dir_of. apply String.eqb_neq in Hgiven. now rewrite Hgiven.
  - intros dir stem ext Hfile Hsep Hdot i. unfold chunk_name.
    now rewrite Hfile, (basename_app dir _ Hsep), (rsplit_app stem ext Hdot).
  - intros i. split.
    + unfold str_of_index. apply NilZero.usu, to_uint_nonnil.
    + apply DecimalNat.Unsigned.of_to.
Qed.

Lemma chunk_files_written_witness :
  (exists a sr chunks,
    sf_read small "/in/a.wav" = Some (a, sr)
    /\ sliced small three_files a sr chunks
    /\ writes small (log small after_a)
       = writes small (log small empty_world)
         ++ map (fun ic =>
                   (join (if String.eqb (leOutputDir three_files) ""
                          then dirname (abspath small "/in/a.wav")
                          else leOutputDir three_files)
                         (rsplit_dot_head (basename "/in/a.wav") ++ "_"
                          ++ str_of_index (fst ic) ++ ".wav")%string,
                    written_chunk small a (snd ic), sr))
                (enumerate chunks)
    /\ map fst (enumerate chunks) = seq 0 (List.length chunks)
    /\ map snd (enumerate chunks) = chunks
    /\ (leOutputDir three_files <> ""%string ->
        In (leOutputDir three_files) (dirs small after_a)
        /\ (~ In (leOutputDir three_files) (dirs small empty_world) ->
            exists later,
              log small after_a = log small empty_world ++ MkPath (leOutputDir three_files) :: later
              /\ writes small later = skipn (List.length (writes small (log small empty_world)))
                                        (writes small (log small after_a))))
    /\ (forall c, In c chunks ->
          List.length (shape small (written_chunk small a c)) = List.length (shape small a)
          /\ List.tl (shape small (written_chunk small a c)) = List.tl (shape small a))
    /\ (leOutputDir three_files = ""%string ->
        forall dir base,
          abspath small "/in/a.wav"%string = (dir ++ String sep base)%string ->
          ~ In sep (list_ascii_of_string base) ->
          dir <> ""%string -> endswith sep dir = false ->
          map (fun x => fst (fst x)) (writes small (log small after_a))
          = map (fun x => fst (fst x)) (writes small (log small empty_world))
            ++ map (fun i => (dir ++ String sep (chunk_name "/in/a.wav" i))%string)
                   (seq 0 (List.length chunks)))
    /\ (leOutputDir three_files <> ""%string ->
        endswith sep (leOutputDir three_files) = false ->
        map (fun x => fst (fst x)) (writes small (log small after_a))
        = map (fun x => fst (fst x)) (writes small (log small empty_world))
          ++ map (fun i => (leOutputDir three_files
                            ++ String sep (chunk_name "/in/a.wav" i))%string)
                 (seq 0 (List.length chunks)))
    /\ (forall dir stem ext,
          "/in/a.wav"%string = (dir ++ String sep (stem ++ String extsep ext))%string ->
          ~ In sep (list_ascii_of_string (stem ++ String extsep ext)) ->
          ~ In extsep (list_ascii_of_string ext) ->
          forall i,
            chunk_name "/in/a.wav" i
            = (stem ++ "_" ++ str_of_index i ++ ".wav")%string)
    /\ (forall i,
          NilZero.uint_of_string (str_of_index i) = Some (Nat.to_uint i)
          /\ Nat.of_uint (Nat.to_uint i) = i))
  /\ (exists a sr chunks,
    sf_read small "/in/a.wav" = Some (a, sr)
    /\ sliced small beside_source a sr chunks
    /\ writes small (log small after_a_beside)
       = writes small (log small empty_world)
         ++ map (fun ic =>
                   (join (if String.eqb (leOutputDir beside_source) ""
                          then dirname (abspath small "/in/a.wav")
                          else leOutputDir beside_source)
                         (rsplit_dot_head (basename "/in/a.wav") ++ "_"
                          ++ str_of_index (fst ic) ++ ".wav")%string,
                    written_chunk small a (snd ic), sr))
                (enumerate chunks)
    /\ map fst (enumerate chunks) = seq 0 (List.length chunks)
    /\ map snd (enumerate chunks) = chunks
    /\ (leOutputDir beside_source <> ""%string ->
        In (leOutputDir beside_source) (dirs small after_a_beside)
        /\ (~ In (leOutputDir beside_source) (dirs small empty_world) ->
            exists later,
              log small after_a_beside
              = log small empty_world
                ++ MkPath (leOutputDir beside_source) :: later
              /\ writes small later = skipn (List.length (writes small (log small empty_world)))
                                        (writes small (log small after_a_beside))))
    /\ (forall c, In c chunks ->
          List.length (shape small (written_chunk small a c)) = List.length (shape small a)
          /\ List.tl (shape small (written_chunk small a c)) = List.tl (shape small a))
    /\ (leOutputDir beside_source = ""%string ->
        forall dir base,
          abspath small "/in/a.wav"%string = (dir ++ String sep base)%string ->
          ~ In sep (list_ascii_of_string base) ->
          dir <> ""%string -> endswith sep dir = false ->
          map (fun x => fst (fst x)) (writes small (log small after_a_beside))
          = map (fun x => fst (fst x)) (writes small (log small empty_world))
            ++ map (fun i => (dir ++ String sep (chunk_name "/in/a.wav" i))%string)
                   (seq 0 (List.length chunks)))
    /\ (leOutputDir beside_source <> ""%string ->
        endswith sep (leOutputDir beside_source) = false ->
        map (fun x => fst (fst x)) (writes small (log small after_a_beside))
        = map (fun x => fst (fst x)) (writes small (log small empty_world))
          ++ map (fun i => (leOutputDir beside_source
                            ++ String sep (chunk_name "/in/a.wav" i))%string)
                 (seq 0 (List.length chunks)))
    /\ (forall dir stem ext,
          "/in/a.wav"%string = (dir ++ String sep (stem ++ String extsep ext))%string ->
          ~ In sep (list_ascii_of_string (stem ++ String extsep ext)) ->
          ~ In extsep (list_ascii_of_string ext) ->
          forall i,
            chunk_name "/in/a.wav" i
            = (stem ++ "_" ++ str_of_index i ++ ".wav")%string)
    /\ (forall i,
          NilZero.uint_of_string (str_of_index i) = Some (Nat.to_uint i)
          /\ Nat.of_uint (Nat.to_uint i) = i)).
Proof.
  split.
  - apply (chunk_files_written small three_files "/in/a.wav" empty_world
             after_a);
      [exact small_array_laws | reflexivity].
  - apply (chunk_files_written small beside_source "/in/a.wav" empty_world
             after_a_beside);
      [exact small_array_laws | reflexivity].
Defined.

End WorkThreadFacts.

(** * Further properties of the window *)

Module GuiMore.
Import OsPath Gui GuiFacts.

Lemma busy_frame w w' :
  processing w' = processing w -> enabled w' = enabled w ->
  btnStartText w' = btnStartText w -> workers w' = workers w ->
  workCount w' = workCount w -> progressMaximum w' = progressMaximum w ->
  (exists new, lwTaskList w' = lwTaskList w ++ new) ->
  busy_invariant w -> busy_invariant w'.
Proof.
  unfold busy_invariant. intros -> -> -> -> -> -> (new & ->) H Hp.
  destruct (H Hp) as (He & Ht & files & later & Hne & Hw & Hl & Hc & Hm).
  split; [exact He|]. split; [exact Ht|].
  exists files, (later ++ map item_path new). repeat split; auto.
  now rewrite map_app, Hl, app_assoc.
Qed.

Ltac busy_framed :=
  eapply busy_frame; [| | | | | | | eassumption];
  try reflexivity; exists []; cbn; now rewrite app_nil_r.

Lemma step_busy w ev :
  run_invariant w -> busy_invariant w -> busy_invariant (step w ev).
Proof.
  intros (Hidle & _ & _) Hbusy. destruct ev; cbn [step].
  - unfold on_browse_output_dir.
    destruct (negb (String.eqb path "")); [busy_framed | assumption].
  - unfold on_add_audio_files. destruct (processing w) eqn:Hp; [busy_framed|].
    rewrite add_files_appends. intros Hp'. cbn in Hp'. congruence.
  - exact Hbusy.
  - unfold on_clear_audio_list. destruct (processing w) eqn:Hp; [busy_framed|].
    intros Hp'. cbn in Hp'. congruence.
  - busy_framed.
  - unfold on_start. destruct (processing w) eqn:Hp; [busy_framed|].
    destruct (Z.eqb_spec (Z.of_nat (List.length (lwTaskList w))) 0) as [H0 | H0];
      [assumption|].
    intros _. cbn. rewrite (Hidle eq_refl). cbn.
    split; [reflexivity|]. split; [reflexivity|].
    exists (map item_path (lwTaskList w)), [].
    rewrite app_nil_r, length_map. repeat split; auto.
    intros Hnil. apply H0. apply map_eq_nil in Hnil. now rewrite Hnil.
  - busy_framed.
  - intros Hp'. cbn in Hp'. discriminate.
  - unfold closeEvent. destruct (processing w); [busy_framed | assumption].
  - unfold dragEnterEvent. destruct (has_wav urls); assumption.
  - rewrite dropEvent_appends.
    eapply busy_frame; [| | | | | | | eassumption]; try reflexivity.
    eexists. cbn. reflexivity.
  - unfold type_text. destruct (lineEdit_enabled w le); [|assumption].
    eapply busy_frame; [| | | | | | | eassumption]; try reflexivity.
    exists []. destruct le; cbn; now rewrite app_nil_r.
  - unfold select_rows. destruct (lwTaskList_en (enabled w));
      [busy_framed | assumption].
Qed.

Lemma reachable_busy w : reachable w -> busy_invariant w.
Proof.
  induction 1 as [ui | w ev Hr IH].
  - intros Hp. cbn in Hp. discriminate.
  - apply step_busy; [now apply reachable_invariant | exact IH].
Qed.

(** X4.  In every state the window can reach with the processing flag set,
    all twelve widgets are disabled and the start button reads
    "Slicing..."; there is exactly one worker, started on the paths of the
    first items of the task list (items dropped since come after them); the
    work count and the progress maximum are the number of its files; and
    typing into a line edit or selecting rows changes nothing, so the texts
    the worker reads stay as they were. *)
Theorem busy_window_is_locked w :
  reachable w ->
  processing w = true ->
  enabled w = all_disabled
  /\ btnStartText w = "Slicing..."%string
  /\ (exists files later,
        files <> []
        /\ workers w = [mkWorker files]
        /\ map item_path (lwTaskList w) = files ++ later
        /\ workCount w = Z.of_nat (List.length files)
        /\ progressMaximum w = Z.of_nat (List.length files))
  /\ (forall le text, type_text w le text = w)
  /\ (forall rows, select_rows w rows = w).
Proof.
  intros Hr Hp. destruct (reachable_busy w Hr Hp) as (He & Ht & Hw).
  repeat split; auto.
  - intros le text. unfold type_text, lineEdit_enabled. rewrite He.
    now destruct le.
  - intros rows. unfold select_rows. now rewrite He.
Qed.

Lemma busy_window_is_locked_witness :
  let w := step (step (init WorkThread.three_files) EvStart)
               (EvDrop [mkUrl true "/in/late.wav"]) in
  enabled w = all_disabled
  /\ btnStartText w = "Slicing..."%string
  /\ (exists files later,
        files <> []
        /\ workers w = [mkWorker files]
        /\ map item_path (lwTaskList w) = files ++ later
        /\ workCount w = Z.of_nat (List.length files)
        /\ progressMaximum w = Z.of_nat (List.length files))
  /\ (forall le text, type_text w le text = w)
  /\ (forall rows, select_rows w rows = w).
Proof.
  apply (busy_window_is_locked
           (step (step (init WorkThread.three_files) EvStart)
                 (EvDrop [mkUrl true "/in/late.wav"]))).
  - apply reach_step, reach_step, reach_init.
  - reflexivity.
Defined.

(** X5.  In every state the window can reach, a close event that arrives
    accepted stays accepted exactly when the processing flag is clear, and
    then there is no worker and the window is untouched; while the flag is
    set the event is ignored, whatever its flag was, and the warning is
    shown. *)
Theorem close_only_when_idle w :
  reachable w ->
  (snd (closeEvent w true) = true <-> processing w = false)
  /\ (snd (closeEvent w true) = true ->
      workers w = [] /\ fst (closeEvent w true) = w)
  /\ (processing w = true ->
      forall accepted,
        closeEvent w accepted = (warningProcessNotFinished w, false)).
Proof.
  intros Hr. destruct (reachable_invariant w Hr) as (Hidle & _ & _).
  unfold closeEvent. destruct (processing w); cbn [fst snd].
  - repeat split; try discriminate; auto.
  - repeat split; auto. discriminate.
Qed.

Lemma close_only_when_idle_witness :
  let w := step (init WorkThread.three_files) EvStart in
  (snd (closeEvent w true) = true <-> processing w = false)
  /\ (snd (closeEvent w true) = true ->
      workers w = [] /\ fst (closeEvent w true) = w)
  /\ (processing w = true ->
      forall accepted,
        closeEvent w accepted = (warningProcessNotFinished w, false)).
Proof.
  apply (close_only_when_idle (step (init WorkThread.three_files) EvStart)).
  apply reach_step, reach_init.
Defined.

(** X6.  With the processing flag clear, [_on_add_audio_files] appends one
    item per path, in order, showing the file name and keeping the full
    path; adding in two goes is adding the concatenation; and a start that
    follows hands the worker the paths already listed followed by the paths
    added, with the work count and the progress maximum set to their number
    and the finished count and the progress value reset to zero. *)
Theorem added_files_reach_the_worker w paths more :
  processing w = false ->
  paths <> [] ->
  lwTaskList (on_add_audio_files w paths)
  = lwTaskList w ++ map (fun path => mkItem (basename path) path) paths
  /\ on_add_audio_files (on_add_audio_files w paths) more
     = on_add_audio_files w (paths ++ more)
  /\ let files := map item_path (lwTaskList w) ++ paths in
     let started := on_start (on_add_audio_files w paths) in
     workers started = workers w ++ [mkWorker files]
     /\ workCount started = Z.of_nat (List.length files)
     /\ progressMaximum started = Z.of_nat (List.length files)
     /\ workFinished started = 0
     /\ progressValue started = 0
     /\ processing started = true.
Proof.
  intros Hp Hne.
  assert (Hadd : forall v l, processing v = false ->
                   on_add_audio_files v l
                   = set_taskList v (lwTaskList v ++ map item_of_path l)).
  { intros v l Hv. unfold on_add_audio_files. rewrite Hv.
    apply add_files_appends. }
  rewrite (Hadd w paths Hp).
  rewrite (Hadd (set_taskList w _) more Hp), (Hadd w (paths ++ more) Hp).
  cbn [set_taskList lwTaskList]. split; [reflexivity|]. split.
  { now rewrite map_app, app_assoc. }
  assert (Hpaths : map item_path (map item_of_path paths) = paths).
  { rewrite map_map. cbn. apply map_id. }
  unfold on_start. cbn [processing set_taskList lwTaskList]. rewrite Hp.
  destruct (Z.eqb_spec
              (Z.of_nat (List.length (lwTaskList w ++ map item_of_path paths))) 0)
    as [H0 | _].
  { rewrite length_app, length_map in H0.
    destruct paths; [congruence | cbn in H0; lia]. }
  cbn -[Z.of_nat]. rewrite map_app, Hpaths, !length_app, !length_map.
  repeat split.
Qed.

Lemma added_files_reach_the_worker_witness :
  let w := step (init WorkThread.three_files) EvClear in
  let paths := ["/in/a.wav"; "/in/c.wav"]%string in
  lwTaskList (on_add_audio_files w paths)
  = lwTaskList w ++ map (fun path => mkItem (basename path) path) paths
  /\ on_add_audio_files (on_add_audio_files w paths) ["/in/d.wav"%string]
     = on_add_audio_files w (paths ++ ["/in/d.wav"%string])
  /\ let files := map item_path (lwTaskList w) ++ paths in
     let started := on_start (on_add_audio_files w paths) in
     workers started = workers w ++ [mkWorker files]
     /\ workCount started = Z.of_nat (List.length files)
     /\ progressMaximum started = Z.of_nat (List.length files)
     /\ workFinished started = 0
     /\ progressValue started = 0
     /\ processing started = true.
Proof.
  apply (added_files_reach_the_worker
           (step (init WorkThread.three_files) EvClear)
           ["/in/a.wav"; "/in/c.wav"]%string ["/in/d.wav"%string]);
    [reflexivity | discriminate].
Defined.

End GuiMore.

(** * Further properties of the worker thread *)

Module WorkThreadMore.
Import OsPath Gui WorkThread WorkThreadFacts.

(** X11.  The line edits are converted for every file, after the file is
    read: when one of the five texts does not convert, a batch of at least
    one file raises at its first file and leaves the world as it was, with
    nothing written, created or notified. *)
Theorem unreadable_setting_stops_at_first_file P win files w :
  files <> [] ->
  py_float P (leThreshold win) = None
  \/ py_int P (leMinLen win) = None
  \/ py_int P (leMinInterval win) = None
  \/ py_int P (leHopSize win) = None
  \/ py_int P (leMaxSilence win) = None ->
  run P win files w = Exn w.
Proof.
  intros Hne Hbad. destruct files as [|f rest]; [congruence|].
  unfold run. cbn [for_each]. unfold bind.
  assert (Hf : run_file P win f w = Exn w).
  { unfold run_file. rewrite bind_try.
    destruct (sf_read P f) as [[a sr]|]; [|reflexivity].
    cbn [fst snd]. rewrite bind_try.
    destruct (py_float P (leThreshold win)); [|reflexivity].
    rewrite bind_try.
    destruct (py_int P (leMinLen win)); [|reflexivity].
    rewrite bind_try.
    destruct (py_int P (leMinInterval win)); [|reflexivity].
    rewrite bind_try.
    destruct (py_int P (leHopSize win)); [|reflexivity].
    rewrite bind_try.
    destruct (py_int P (leMaxSilence win)); [|reflexivity].
    exfalso. destruct Hbad as [H | [H | [H | [H | H]]]]; discriminate H. }
  now rewrite Hf.
Qed.

Lemma unreadable_setting_stops_at_first_file_witness :
  run small_strict no_hop_size ["/in/a.wav"; "/in/c.wav"]%string
      (mkWorld small_strict [] [])
  = Exn (mkWorld small_strict [] []).
Proof.
  apply (unreadable_setting_stops_at_first_file small_strict no_hop_size
           ["/in/a.wav"; "/in/c.wav"]%string (mkWorld small_strict [] []));
    [discriminate | right; right; right; left; reflexivity].
Defined.

End WorkThreadMore.

(** * Properties of the names: chunk files and dropped files *)

Module NamesMore.
Import OsPath Gui PathFacts GuiFacts WorkThread WorkThreadFacts.

Lemma chunk_path_inj (out f : string) (i j : nat) :
  join out (chunk_name f i) = join out (chunk_name f j) -> i = j.
Proof.
  rewrite !join_relative by apply chunk_name_relative.
  intros H. apply append_inv_head in H. now apply chunk_name_inj in H.
Qed.

Lemma chunk_paths_nodup (out f : string) (n : nat) :
  NoDup (map (fun i => join out (chunk_name f i)) (seq 0 n)).
Proof.
  apply Finite.Injective_map_NoDup; [|apply seq_NoDup].
  intros i j. apply chunk_path_inj.
Qed.

(** X12.  The chunks of one file never overwrite one another: the paths a
    file processed to its end is written to are pairwise different, each is
    the output directory followed by a separator (unless the directory is
    empty or ends in one) and the chunk's name, and two chunk numbers give
    the same path only when they are equal. *)
Theorem chunk_paths_are_distinct P win f w w' :
  run_file P win f w = Ok tt w' ->
  exists paths,
    map (fun x => fst (fst x)) (writes P (log P w'))
    = map (fun x => fst (fst x)) (writes P (log P w)) ++ paths
    /\ NoDup paths
    /\ (forall path, In path paths ->
        exists i,
          path = ((if String.eqb (out_dir_of P win f) ""
                      || endswith sep (out_dir_of P win f)
                   then out_dir_of P win f
                   else out_dir_of P win f ++ String sep EmptyString)
                  ++ chunk_name f i)%string)
    /\ (forall i j,
          join (out_dir_of P win f) (chunk_name f i)
          = join (out_dir_of P win f) (chunk_name f j) -> i = j).
Proof.
  intros Hrun.
  destruct (run_file_ok P _ _ _ _ Hrun) as (a & sr & chunks & _ & _ & _ & Hlog).
  exists (map (fun i => join (out_dir_of P win f) (chunk_name f i))
              (seq 0 (List.length chunks))).
  split; [|split; [apply chunk_paths_nodup | split]].
  - rewrite Hlog, !writes_app, writes_mkpath, writes_chunk_writes.
    cbn [app]. rewrite app_nil_r, map_app. f_equal.
    rewrite map_map. cbn [fst].
    rewrite <- (enumerate_from_fst chunks 0), map_map. reflexivity.
  - intros path Hin. apply in_map_iff in Hin as (i & <- & _).
    exists i. apply join_relative, chunk_name_relative.
  - intros i j. apply chunk_path_inj.
Qed.

Lemma chunk_paths_are_distinct_witness :
  exists paths,
    map (fun x => fst (fst x)) (writes small (MkPath "/out" :: a_effects))
    = map (fun x => fst (fst x)) (writes small []) ++ paths
    /\ NoDup paths
    /\ (forall path, In path paths ->
        exists i,
          path = ((if String.eqb (out_dir_of small three_files "/in/a.wav") ""
                      || endswith sep (out_dir_of small three_files "/in/a.wav")
                   then out_dir_of small three_files "/in/a.wav"
                   else out_dir_of small three_files "/in/a.wav"
                        ++ String sep EmptyString)
                  ++ chunk_name "/in/a.wav" i)%string)
    /\ (forall i j,
          join (out_dir_of small three_files "/in/a.wav")
               (chunk_name "/in/a.wav" i)
          = join (out_dir_of small three_files "/in/a.wav")
                 (chunk_name "/in/a.wav" j) -> i = j).
Proof.
  apply (chunk_paths_are_distinct small three_files "/in/a.wav" empty_world
           (mkWorld small ["/out"%string] (MkPath "/out" :: a_effects))).
  reflexivity.
Defined.

End NamesMore.
